(** * The xv6 buffer cache (bio.c), in the variant prepared for model checking

    A shallow embedding of [bio.c]: the pool [bcache] with its global
    lock flag, the [NBUF] buffers and the sentinel [head] of the
    circular doubly linked recency list, and the operations [binit],
    [bget], [iderw], [bread], [bwrite] and [brelse].

    Pointers to [struct buf] are modelled symbolically: the address of
    the sentinel, the address of [bcache.buf[i]], or the null pointer.
    The C globals become one explicit state that every operation
    threads through; [goto ERROR] (the call of [__VERIFIER_error]) and
    a load or store through a pointer that designates no buffer end
    the run with a fault. *)

From stdpp Require Import base decidable option numbers sets list.

Set Warnings "-clear-no-such-hyp".

Local Open Scope Z_scope.

(** ** Data model *)

Definition NBUF : nat := 3.

(** [uint] is a 32-bit unsigned integer; arithmetic on it wraps. *)
Definition UINT_MOD : Z := 2 ^ 32.
Definition uint_wrap (z : Z) : Z := z mod UINT_MOD.

(** A [struct buf *]. [Buf i] is [&bcache.buf[i]] (also one past the
    end, as the comparisons of [binit] form it), [Head] is
    [&bcache.head], [Null] is the null pointer. *)
Inductive ptr : Type :=
  | Head
  | Buf (i : nat)
  | Null.

#[global] Instance ptr_eq_dec : EqDecision ptr.
Proof. solve_decision. Defined.

(** [struct buf]. The fields [qnext] and [data] are left out: no
    function of the file reads or writes them. *)
Record buf : Type := mkBuf {
  valid : Z;
  dirty : Z;
  dev : Z;
  blockno : Z;
  lock : Z;
  refcnt : Z;
  prev : ptr;
  next : ptr
}.

Definition with_valid (v : Z) (x : buf) : buf :=
  mkBuf v (dirty x) (dev x) (blockno x) (lock x) (refcnt x) (prev x) (next x).
Definition with_dirty (v : Z) (x : buf) : buf :=
  mkBuf (valid x) v (dev x) (blockno x) (lock x) (refcnt x) (prev x) (next x).
Definition with_dev (v : Z) (x : buf) : buf :=
  mkBuf (valid x) (dirty x) v (blockno x) (lock x) (refcnt x) (prev x) (next x).
Definition with_blockno (v : Z) (x : buf) : buf :=
  mkBuf (valid x) (dirty x) (dev x) v (lock x) (refcnt x) (prev x) (next x).
Definition with_lock (v : Z) (x : buf) : buf :=
  mkBuf (valid x) (dirty x) (dev x) (blockno x) v (refcnt x) (prev x) (next x).
Definition with_refcnt (v : Z) (x : buf) : buf :=
  mkBuf (valid x) (dirty x) (dev x) (blockno x) (lock x) v (prev x) (next x).
Definition with_prev (p : ptr) (x : buf) : buf :=
  mkBuf (valid x) (dirty x) (dev x) (blockno x) (lock x) (refcnt x) p (next x).
Definition with_next (p : ptr) (x : buf) : buf :=
  mkBuf (valid x) (dirty x) (dev x) (blockno x) (lock x) (refcnt x) (prev x) p.

(** The global [bcache], and the trace of the calls of the device
    collaborator [iderw] (most recent call first). The trace is ghost
    state: the program does not read it. *)
Record bcache : Type := mkCache {
  bc_lock : Z;
  bc_buf : list buf;
  bc_head : buf;
  ide_calls : list ptr
}.

Definition set_bc_lock (v : Z) (st : bcache) : bcache :=
  mkCache v (bc_buf st) (bc_head st) (ide_calls st).

(** Reading and writing the buffer a pointer designates. *)
Definition rd (st : bcache) (p : ptr) : option buf :=
  match p with
  | Head => Some (bc_head st)
  | Buf i => bc_buf st !! i
  | Null => None
  end.

Definition wr (st : bcache) (p : ptr) (x : buf) : bcache :=
  match p with
  | Head => mkCache (bc_lock st) (bc_buf st) x (ide_calls st)
  | Buf i => mkCache (bc_lock st) (<[i := x]> (bc_buf st)) (bc_head st) (ide_calls st)
  | Null => st
  end.

(** ** Outcomes and the state monad of the embedding *)

Inductive fault : Type :=
  | VERIFIER_error      (* goto ERROR: __VERIFIER_error() *)
  | invalid_pointer     (* access through a pointer to no buffer *)
  | out_of_fuel.        (* a list scan did not reach the sentinel *)

Inductive result (A : Type) : Type :=
  | Ok (a : A)
  | Err (f : fault).
Arguments Ok {A} a.
Arguments Err {A} f.

Definition M (A : Type) : Type := bcache → result (A * bcache).

#[global] Instance M_ret : MRet M := λ A a st, Ok (a, st).
#[global] Instance M_bind : MBind M := λ A B k m st,
  match m st with
  | Ok (a, st') => k a st'
  | Err f => Err f
  end.

Definition fail {A} (f : fault) : M A := λ _, Err f.

Definition load (p : ptr) : M buf :=
  λ st, match rd st p with
        | Some x => Ok (x, st)
        | None => Err invalid_pointer
        end.

(** [p->field = v]: one read-modify-write of the buffer at [p]. *)
Definition update (p : ptr) (f : buf → buf) : M unit :=
  λ st, match rd st p with
        | Some x => Ok (tt, wr st p (f x))
        | None => Err invalid_pointer
        end.

Definition get_lock : M Z := λ st, Ok (bc_lock st, st).
Definition put_lock (v : Z) : M unit := λ st, Ok (tt, set_bc_lock v st).

(** [if (c) goto ERROR;] *)
Definition error_if (c : bool) : M unit :=
  if c then fail VERIFIER_error else mret tt.

Fixpoint for_each (l : list nat) (body : nat → M unit) : M unit :=
  match l with
  | [] => mret tt
  | i :: l' => body i ;; for_each l' body
  end.

(** ** binit *)

Definition binit_link (i : nat) : M unit :=
  h ← load Head;
  update (Buf i) (with_next (next h)) ;;
  update (Buf i) (with_prev Head) ;;
  update (Buf i) (with_lock 0) ;;
  h ← load Head;
  update (next h) (with_prev (Buf i)) ;;
  update Head (with_next (Buf i)).

Definition ptr_neqb (p q : ptr) : bool := bool_decide (p ≠ q).

Definition binit_check (i : nat) : M unit :=
  b ← load (Buf i);
  if bool_decide (i = 0%nat) then
    error_if (ptr_neqb (next b) Head) ;;
    error_if (ptr_neqb (prev b) (Buf (i + 1)))
  else if bool_decide (i = (NBUF - 1)%nat) then
    error_if (ptr_neqb (next b) (Buf (i - 1))) ;;
    error_if (ptr_neqb (prev b) Head)
  else
    error_if (ptr_neqb (next b) (Buf (i - 1))) ;;
    error_if (ptr_neqb (prev b) (Buf (i + 1))).

Definition binit : M Z :=
  put_lock 0 ;;
  update Head (with_prev Head) ;;
  update Head (with_next Head) ;;
  for_each (seq 0 NBUF) binit_link ;;
  h ← load Head;
  error_if (ptr_neqb (next h) (Buf (NBUF - 1))) ;;
  h ← load Head;
  error_if (ptr_neqb (prev h) (Buf 0)) ;;
  for_each (seq 0 NBUF) binit_check ;;
  mret 0.

(** ** bget *)

(** [release(&bcache.lock)] as the file spells it out, followed by the
    stand-in for [acquiresleep(&b->lock)]. The source writes the latter
    as [b.lock = 1] on the pointer [b]; it is modelled as the store to
    the lock flag of the buffer [b] points to, which is what the comment
    next to it names. *)
Definition bget_return (b : ptr) : M (option ptr) :=
  l ← get_lock;
  error_if (l =? 0) ;;
  put_lock 0 ;;
  update b (with_lock 1) ;;
  mret (Some b).

(** Both loops of [bget] have the shape
    [for (b = start; b != &bcache.head; b = b->link) if (test) { ...; return b; }].
    [None] means the loop ran to the sentinel without returning. The
    scan follows the links of a structure that need not be a
    well-formed list, so it carries fuel. *)
Fixpoint scan (link : buf → ptr) (test : buf → bool)
    (found : ptr → M (option ptr)) (fuel : nat) (b : ptr) : M (option ptr) :=
  match fuel with
  | O => fail out_of_fuel
  | S fuel' =>
      if bool_decide (b = Head) then mret None
      else
        x ← load b;
        if test x then found b
        else scan link test found fuel' (link x)
  end.

(** First loop: is the block already cached? *)
Definition is_block (d bn : Z) (x : buf) : bool :=
  (dev x =? d) && (blockno x =? bn).

Definition bget_hit (b : ptr) : M (option ptr) :=
  update b (λ x, with_refcnt (uint_wrap (refcnt x + 1)) x) ;;
  bget_return b.

Definition bget_cached (fuel : nat) (d bn : Z) (b : ptr) : M (option ptr) :=
  scan next (is_block d bn) bget_hit fuel b.

(** Second loop: recycle a buffer, scanning along [prev]. *)
Definition recyclable (x : buf) : bool :=
  (refcnt x =? 0) && (dirty x =? 1).

Definition bget_rebind (d bn : Z) (b : ptr) : M (option ptr) :=
  update b (with_dev d) ;;
  update b (with_blockno bn) ;;
  update b (with_dirty 0) ;;
  update b (with_valid 0) ;;
  update b (with_refcnt 1) ;;
  bget_return b.

Definition bget_recycle (fuel : nat) (d bn : Z) (b : ptr) : M (option ptr) :=
  scan prev recyclable (bget_rebind d bn) fuel b.

Definition bget (fuel : nat) (d bn : Z) : M ptr :=
  l ← get_lock;
  error_if (l =? 1) ;;
  put_lock 1 ;;
  h ← load Head;
  r ← bget_cached fuel d bn (next h);
  match r with
  | Some b => mret b
  | None =>
      h ← load Head;
      r ← bget_recycle fuel d bn (prev h);
      match r with
      | Some b => mret b
      | None => mret Null
      end
  end.

(** ** iderw, bread, bwrite *)

Definition log_ide (b : ptr) : M unit :=
  λ st, Ok (tt, mkCache (bc_lock st) (bc_buf st) (bc_head st) (b :: ide_calls st)).

(** The dummy disk transfer. *)
Definition iderw (b : ptr) : M unit :=
  log_ide b ;;
  update b (with_valid 1).

Definition bread (fuel : nat) (d bn : Z) : M ptr :=
  b ← bget fuel d bn;
  iderw b ;;
  x ← load b;
  error_if (negb (valid x =? 1)) ;;
  mret b.

Definition bwrite (b : ptr) : M unit :=
  update b (with_dirty 1) ;;
  x ← load b;
  error_if (negb (dirty x =? 1)) ;;
  iderw b ;;
  x ← load b;
  error_if (negb (valid x =? 1)).

(** ** brelse *)

(** The body of the first [if (b->refcnt == 0)]: unlink [b] and put it
    back right after the sentinel. Every statement reads the pointers
    it uses from the current state. *)
Definition brelse_move (b : ptr) : M unit :=
  x ← load b;
  update (next x) (with_prev (prev x)) ;;
  x ← load b;
  update (prev x) (with_next (next x)) ;;
  h ← load Head;
  update b (with_next (next h)) ;;
  update b (with_prev Head) ;;
  h ← load Head;
  update (next h) (with_prev b) ;;
  update Head (with_next b).

(** The body of the second [if (b->refcnt == 0)]. *)
Definition brelse_check (b mru : ptr) : M unit :=
  h ← load Head;
  error_if (ptr_neqb (next h) b) ;;
  x ← load b;
  error_if (ptr_neqb (prev x) Head) ;;
  x ← load b;
  error_if (ptr_neqb (next x) mru) ;;
  m ← load mru;
  error_if (ptr_neqb (prev m) b).

Definition brelse (b : ptr) : M unit :=
  l ← get_lock;
  error_if (l =? 1) ;;
  put_lock 1 ;;
  update b (λ x, with_refcnt (uint_wrap (refcnt x - 1)) x) ;;
  h ← load Head;
  let mru := next h in
  x ← load b;
  (if refcnt x =? 0 then brelse_move b else mret tt) ;;
  x ← load b;
  (if refcnt x =? 0 then brelse_check b mru else mret tt) ;;
  l ← get_lock;
  error_if (l =? 0) ;;
  put_lock 0.

(** ** main *)

(** The test of [main] on the buffer [bget] returned:
    [b->dev != 10 || b->blockno != 20 || b->refcnt < 1]. *)
Definition main_bad_buffer (x : buf) : bool :=
  negb (dev x =? 10) || negb (blockno x =? 20) || (refcnt x <? 1).

Definition main (fuel : nat) : M Z :=
  initcheck ← binit;
  error_if (negb (initcheck =? 0)) ;;
  put_lock 0 ;;
  b ← bget fuel 10 20;
  (if bool_decide (b ≠ Null)
   then x ← load b; error_if (main_bad_buffer x)
   else mret tt) ;;
  put_lock 0 ;;
  bread fuel 20 40 ;;
  bwrite (Buf 1) ;;
  put_lock 0 ;;
  brelse (Buf 0) ;;
  mret 0.

(** ** The recency list as a logical structure *)

Definition nextp (st : bcache) (p : ptr) : option ptr := next <$> rd st p.
Definition prevp (st : bcache) (p : ptr) : option ptr := prev <$> rd st p.

(** [dpath f g p l q]: from [p], the forward link map [f] leads through
    the nodes of [l] to [q], and the backward link map [g] leads back
    the same way. *)
Fixpoint dpath (f g : ptr → option ptr) (p : ptr) (l : list ptr) (q : ptr) : Prop :=
  match l with
  | [] => f p = Some q ∧ g q = Some p
  | x :: l' => f p = Some x ∧ g x = Some p ∧ dpath f g x l' q
  end.

(** [walk f p l q]: following the link map [f] from [p] passes through
    exactly the nodes of [l] and then reaches [q]. *)
Fixpoint walk (f : ptr → option ptr) (p : ptr) (l : list ptr) (q : ptr) : Prop :=
  match l with
  | [] => f p = Some q
  | x :: l' => f p = Some x ∧ walk f x l' q
  end.

(** The list invariant: [l] is the order of the buffers from the
    most-recently-used end ([head.next]) to the least-recently-used end
    ([head.prev]); it holds every buffer of the pool exactly once, and
    the links form one cycle through the sentinel. *)
Definition list_inv (st : bcache) (l : list nat) : Prop :=
  length (bc_buf st) = NBUF ∧
  l ≡ₚ seq 0 NBUF ∧
  dpath (nextp st) (prevp st) Head (Buf <$> l) Head.

(** The traversals the program performs, as functions: the indices
    met from [p] along the link [sel] up to the sentinel. *)
Fixpoint traverse (sel : buf → ptr) (fuel : nat) (st : bcache) (p : ptr)
  : option (list nat) :=
  match fuel with
  | O => None
  | S fuel' =>
      match p with
      | Head => Some []
      | Null => None
      | Buf i =>
          x ← bc_buf st !! i;
          (i ::.) <$> traverse sel fuel' st (sel x)
      end
  end.

Definition mru_to_lru (st : bcache) : option (list nat) :=
  traverse next (S NBUF) st (next (bc_head st)).
Definition lru_to_mru (st : bcache) : option (list nat) :=
  traverse prev (S NBUF) st (prev (bc_head st)).

(** Everything of a buffer but its two list links. *)
Definition payload (x : buf) : Z * Z * Z * Z * Z * Z :=
  (valid x, dirty x, dev x, blockno x, lock x, refcnt x).

Definition links (x : buf) : ptr * ptr := (prev x, next x).

(** The block a buffer is bound to, and the states in which no two
    buffers of the pool are bound to the same block. *)
Definition bound_to (x : buf) : Z * Z := (dev x, blockno x).
Definition distinct_blocks (st : bcache) : Prop :=
  NoDup (bound_to <$> bc_buf st).

(** States with the same trace of [iderw] calls. *)
Definition same_calls (st st' : bcache) : Prop :=
  ide_calls st' = ide_calls st.

(** The C globals at program start: static storage is zero-initialised. *)
Definition zero_buf : buf := mkBuf 0 0 0 0 0 0 Null Null.
Definition zero_cache : bcache := mkCache 0 (replicate NBUF zero_buf) zero_buf [].

(** States that agree on the projection [f] of every buffer. *)
Definition same_field {A} (f : buf → A) (st st' : bcache) : Prop :=
  ∀ p, f <$> rd st' p = f <$> rd st p.

(** A computation keeps the relation [R] when every normal return
    leaves the final state related to the initial one. *)
Definition keeps {A} (R : relation bcache) (m : M A) : Prop :=
  ∀ st a st', m st = Ok (a, st') → R st st'.

(** The loop test evaluated on the buffer with index [i]. *)
Definition test_at (st : bcache) (test : buf → bool) (i : nat) : bool :=
  from_option test false (bc_buf st !! i).

(** The buffer a hit leaves behind, and the buffer a rebinding leaves
    behind. *)
Definition hit_buf (x : buf) : buf :=
  with_lock 1 (with_refcnt (uint_wrap (refcnt x + 1)) x).
Definition rebound_buf (d bn : Z) (x : buf) : buf :=
  mkBuf 0 0 d bn 1 1 (prev x) (next x).

(** The state [brelse] reaches after taking the global lock and
    decrementing the reference count of [b]. *)
Definition brelse_dec (b : ptr) (x : buf) (st : bcache) : bcache :=
  wr (set_bc_lock 1 st) b (with_refcnt (uint_wrap (refcnt x - 1)) x).

(** ** States used to exercise the operations

    Each one is reached from the zero-initialised globals by calls of
    the operations themselves. *)

(** Fuel that suffices for a scan of a well-formed list. *)
Definition FUEL : nat := S NBUF.

Definition state_of {A} (r : result (A * bcache)) : bcache :=
  match r with
  | Ok (_, st) => st
  | Err _ => zero_cache
  end.

(** After [binit()]. *)
Definition st_init : bcache :=
  Eval vm_compute in state_of (binit zero_cache).

(** After [binit(); brelse(&bcache.buf[2])]: the release of a buffer
    nobody holds. *)
Definition st_under : bcache :=
  Eval vm_compute in state_of (brelse (Buf 2) st_init).

(** After [binit(); bwrite(&bcache.buf[1])], as in [main]. *)
Definition st_written1 : bcache :=
  Eval vm_compute in state_of (bwrite (Buf 1) st_init).

(** After [binit(); bwrite(&bcache.buf[2])]. *)
Definition st_written2 : bcache :=
  Eval vm_compute in state_of (bwrite (Buf 2) st_init).

(** After [binit(); bwrite(&bcache.buf[0])]. *)
Definition st_written0 : bcache :=
  Eval vm_compute in state_of (bwrite (Buf 0) st_init).

(** After [binit(); bwrite(&bcache.buf[0]); bget(10, 20)]: buffer 0 is
    held by one caller. *)
Definition st_held0 : bcache :=
  Eval vm_compute in
    state_of ((bwrite (Buf 0) ;; bget FUEL 10 20) st_init).

(** After a second [bget(10, 20)] in that state: buffer 0 is held
    twice. *)
Definition st_held0_twice : bcache :=
  Eval vm_compute in state_of (bget FUEL 10 20 st_held0).

(** After the release of that buffer: [brelse(&bcache.buf[0])]. *)
Definition st_released0 : bcache :=
  Eval vm_compute in state_of (brelse (Buf 0) st_held0).

(** After [binit()] and [bwrite] on each of the three buffers, and
    then after [bget(1, 1)], which rebinds buffer 0. *)
Definition st_all_written : bcache :=
  Eval vm_compute in
    state_of ((bwrite (Buf 0) ;; bwrite (Buf 1) ;; bwrite (Buf 2)) st_init).
Definition st_all_written_held0 : bcache :=
  Eval vm_compute in state_of (bget FUEL 1 1 st_all_written).

(** All three buffers written and then acquired for the blocks
    (1,1), (1,2), (1,3): a saturated pool. *)
Definition st_full : bcache :=
  Eval vm_compute in
    state_of ((bwrite (Buf 0) ;; bwrite (Buf 1) ;; bwrite (Buf 2) ;;
               bget FUEL 1 1 ;; bget FUEL 1 2 ;; bget FUEL 1 3) st_init).

(** The saturated pool after [brelse(&buf[0]); bwrite(&buf[0])]: the
    three buffers are bound to distinct blocks and buffer 0 passes the
    recycling test. *)
Definition st_recyclable0 : bcache :=
  Eval vm_compute in
    state_of ((brelse (Buf 0) ;; bwrite (Buf 0)) st_full).

(** ** Basic facts about the store *)

Lemma rd_wr_eq st p x : is_Some (rd st p) → rd (wr st p x) p = Some x.
Proof.
  destruct p as [|i|]; simpl; [done| |by intros [? ?]].
  intros [y Hy]. apply list_lookup_insert_eq. by eapply lookup_lt_Some.
Qed.

Lemma rd_wr_ne st p q x : p ≠ q → rd (wr st p x) q = rd st q.
Proof.
  destruct p as [|i|], q as [|j|]; simpl; try done.
  intros Hne. apply list_lookup_insert_ne. congruence.
Qed.

Lemma rd_wr st p q x y :
  rd st p = Some y →
  rd (wr st p x) q = if decide (q = p) then Some x else rd st q.
Proof.
  intros Hp. case_decide as Hq.
  - subst q. apply rd_wr_eq. eauto.
  - by apply rd_wr_ne.
Qed.

Lemma rd_set_bc_lock st v p : rd (set_bc_lock v st) p = rd st p.
Proof. by destruct p. Qed.

Lemma bc_lock_wr st p x : bc_lock (wr st p x) = bc_lock st.
Proof. by destruct p. Qed.

Lemma ide_calls_wr st p x : ide_calls (wr st p x) = ide_calls st.
Proof. by destruct p. Qed.

Lemma length_wr st p x : length (bc_buf (wr st p x)) = length (bc_buf st).
Proof. destruct p; simpl; [done|apply length_insert|done]. Qed.

Lemma bind_ok {A B} (m : M A) (k : A → M B) st b st2 :
  (m ≫= k) st = Ok (b, st2) ↔
  ∃ a st1, m st = Ok (a, st1) ∧ k a st1 = Ok (b, st2).
Proof.
  unfold mbind, M_bind. split.
  - destruct (m st) as [[a st1]|f]; [eauto|done].
  - intros (a & st1 & -> & H). done.
Qed.

Lemma update_ok p f st u st' :
  update p f st = Ok (u, st') ↔ ∃ x, rd st p = Some x ∧ st' = wr st p (f x).
Proof.
  unfold update. destruct (rd st p) as [x|]; split.
  - intros [= <- <-]. eauto.
  - intros (y & [= <-] & ->). by destruct u.
  - done.
  - by intros (y & ? & _).
Qed.

Lemma load_ok p st x st' :
  load p st = Ok (x, st') ↔ rd st p = Some x ∧ st' = st.
Proof.
  unfold load. destruct (rd st p) as [y|]; split.
  - by intros [= <- <-].
  - by intros [[= <-] ->].
  - done.
  - by intros [? _].
Qed.

Lemma error_if_ok c st u st' :
  error_if c st = Ok (u, st') ↔ c = false ∧ st' = st.
Proof.
  destruct c; simpl; split; try done.
  - by intros [? _].
  - by intros [= <- <-].
  - intros [_ ->]. by destruct u.
Qed.

Lemma put_lock_ok v st u st' :
  put_lock v st = Ok (u, st') ↔ st' = set_bc_lock v st.
Proof.
  unfold put_lock. split; [by intros [= <- <-]|intros ->; by destruct u].
Qed.

Lemma get_lock_ok st v st' :
  get_lock st = Ok (v, st') ↔ v = bc_lock st ∧ st' = st.
Proof. unfold get_lock. split; [by intros [= <- <-]|by intros [-> ->]]. Qed.

Lemma mret_ok {A} (a b : A) st st' :
  mret (M := M) a st = Ok (b, st') ↔ b = a ∧ st' = st.
Proof.
  unfold mret, M_ret. split; [by intros [= <- <-]|by intros [-> ->]].
Qed.

(** Forward execution of one statement. *)
Lemma mret_eq {A} (a : A) st : mret (M := M) a st = Ok (a, st).
Proof. done. Qed.

Lemma bind_eq {A B} (m : M A) (k : A → M B) st a st1 :
  m st = Ok (a, st1) → (m ≫= k) st = k a st1.
Proof. unfold mbind, M_bind. by intros ->. Qed.

Lemma load_eq p st x : rd st p = Some x → load p st = Ok (x, st).
Proof. unfold load. by intros ->. Qed.

Lemma update_eq p f st x :
  rd st p = Some x → update p f st = Ok (tt, wr st p (f x)).
Proof. unfold update. by intros ->. Qed.

(** ** Frame reasoning: what a computation leaves alone *)

Section Keeps.
Context (R : relation bcache) `{!PreOrder R}.

Lemma keeps_mret {A} (a : A) : keeps R (mret a).
Proof. intros st b st' [_ ->]%mret_ok. reflexivity. Qed.

Lemma keeps_fail {A} f : keeps R (@fail A f).
Proof. by intros st b st'. Qed.

Lemma keeps_bind {A B} (m : M A) (k : A → M B) :
  keeps R m → (∀ a, keeps R (k a)) → keeps R (m ≫= k).
Proof.
  intros Hm Hk st b st' (a & st1 & H1 & H2)%bind_ok.
  transitivity st1; [by eapply Hm|by eapply Hk].
Qed.

Lemma keeps_load p : keeps R (load p).
Proof. intros st x st' [_ ->]%load_ok. reflexivity. Qed.

Lemma keeps_error_if c : keeps R (error_if c).
Proof. intros st x st' [_ ->]%error_if_ok. reflexivity. Qed.

Lemma keeps_get_lock : keeps R get_lock.
Proof. intros st x st' [_ ->]%get_lock_ok. reflexivity. Qed.

Lemma keeps_if {A} (c : bool) (m1 m2 : M A) :
  keeps R m1 → keeps R m2 → keeps R (if c then m1 else m2).
Proof. by destruct c. Qed.

Lemma keeps_scan link test found fuel b :
  (∀ p, keeps R (found p)) → keeps R (scan link test found fuel b).
Proof.
  intros Hfound. revert b.
  induction fuel as [|fuel IH]; intros b; simpl; [apply keeps_fail|].
  case_bool_decide; [apply keeps_mret|].
  apply keeps_bind; [apply keeps_load|intros x].
  destruct (test x); [apply Hfound|apply IH].
Qed.
End Keeps.

Section SameField.
Context {A : Type} (f : buf → A).

#[global] Instance same_field_preorder : PreOrder (same_field f).
Proof.
  split; [by intros st p|].
  intros st1 st2 st3 H12 H23 p. by rewrite H23, H12.
Qed.

Lemma keeps_put_lock v : keeps (same_field f) (put_lock v).
Proof. intros st u st' ->%put_lock_ok p. by rewrite rd_set_bc_lock. Qed.

Lemma keeps_log_ide b : keeps (same_field f) (log_ide b).
Proof.
  intros st u st' H p. unfold log_ide in H. simplify_eq. by destruct p.
Qed.

Lemma keeps_update p g :
  (∀ x, f (g x) = f x) → keeps (same_field f) (update p g).
Proof.
  intros Hg st u st' (x & Hx & ->)%update_ok q.
  erewrite rd_wr by done. case_decide as Hq; [|done].
  subst q. rewrite Hx. simpl. by rewrite Hg.
Qed.
End SameField.

(** The statements of the file, sorted by the fields they assign. *)
Ltac keeps_step :=
  lazymatch goal with
  | |- keeps ?R (@mbind _ _ _ _ ?k ?m) => apply (keeps_bind R m k); [|intros ?]
  | |- keeps ?R (@mret _ _ _ ?a) => apply (keeps_mret R a)
  | |- keeps ?R (fail ?e) => apply (keeps_fail R e)
  | |- keeps ?R (load ?p) => apply (keeps_load R p)
  | |- keeps ?R (error_if ?c) => apply (keeps_error_if R c)
  | |- keeps ?R get_lock => apply (keeps_get_lock R)
  | |- keeps (same_field ?f) (put_lock ?v) => apply (keeps_put_lock f v)
  | |- keeps (same_field ?f) (log_ide ?b) => apply (keeps_log_ide f b)
  | |- keeps (same_field ?f) (update ?p ?g) => apply (keeps_update f p g); try done
  | |- keeps ?R (if ?c then ?m1 else ?m2) => apply (keeps_if R c m1 m2)
  | |- keeps ?R (scan ?l ?t ?fd ?n ?b) => apply (keeps_scan R l t fd n b); intros ?
  | |- keeps _ (match ?r with Some _ => _ | None => _ end) => destruct r
  end.

Ltac keeps_auto := repeat keeps_step.

Lemma bget_keeps {A} (f : buf → A) fuel d bn :
  (∀ v x, f (with_refcnt v x) = f x) →
  (∀ v x, f (with_lock v x) = f x) →
  (∀ v x, f (with_dev v x) = f x) →
  (∀ v x, f (with_blockno v x) = f x) →
  (∀ v x, f (with_dirty v x) = f x) →
  (∀ v x, f (with_valid v x) = f x) →
  keeps (same_field f) (bget fuel d bn).
Proof.
  intros H1 H2 H3 H4 H5 H6.
  unfold bget, bget_cached, bget_recycle, bget_hit, bget_rebind, bget_return.
  keeps_auto.
Qed.

Lemma iderw_keeps {A} (f : buf → A) b :
  (∀ v x, f (with_valid v x) = f x) → keeps (same_field f) (iderw b).
Proof. intros H. unfold iderw. keeps_auto. Qed.

Lemma bread_keeps {A} (f : buf → A) fuel d bn :
  (∀ v x, f (with_refcnt v x) = f x) →
  (∀ v x, f (with_lock v x) = f x) →
  (∀ v x, f (with_dev v x) = f x) →
  (∀ v x, f (with_blockno v x) = f x) →
  (∀ v x, f (with_dirty v x) = f x) →
  (∀ v x, f (with_valid v x) = f x) →
  keeps (same_field f) (bread fuel d bn).
Proof.
  intros H1 H2 H3 H4 H5 H6. unfold bread.
  keeps_step; [by apply bget_keeps|].
  keeps_step; [by apply iderw_keeps|].
  keeps_auto.
Qed.

Lemma bwrite_keeps {A} (f : buf → A) b :
  (∀ v x, f (with_dirty v x) = f x) →
  (∀ v x, f (with_valid v x) = f x) →
  keeps (same_field f) (bwrite b).
Proof.
  intros H1 H2. unfold bwrite.
  keeps_step; [by apply keeps_update|].
  keeps_step; [keeps_step|].
  keeps_step; [keeps_step|].
  keeps_step; [by apply iderw_keeps|].
  keeps_auto.
Qed.

Lemma brelse_keeps {A} (f : buf → A) b :
  (∀ v x, f (with_refcnt v x) = f x) →
  (∀ v x, f (with_prev v x) = f x) →
  (∀ v x, f (with_next v x) = f x) →
  keeps (same_field f) (brelse b).
Proof.
  intros H1 H2 H3. unfold brelse, brelse_move, brelse_check. cbv zeta.
  keeps_auto.
Qed.

(** ** Link maps and the list invariant *)

Lemma same_field_length {A} (f : buf → A) st st' :
  same_field f st st' → length (bc_buf st') = length (bc_buf st).
Proof.
  intros H.
  assert (∀ i, is_Some (bc_buf st' !! i) ↔ is_Some (bc_buf st !! i)) as Hi.
  { intros i. specialize (H (Buf i)). simpl in H.
    rewrite <-!(fmap_is_Some f), H. done. }
  destruct (Nat.lt_trichotomy (length (bc_buf st')) (length (bc_buf st)))
    as [Hlt|[Heq|Hlt]]; [|done|].
  - apply lookup_lt_is_Some_2, Hi, lookup_lt_is_Some_1 in Hlt. lia.
  - apply lookup_lt_is_Some_2, Hi, lookup_lt_is_Some_1 in Hlt. lia.
Qed.

Lemma same_links_nextp st st' :
  same_field links st st' → ∀ p, nextp st' p = nextp st p.
Proof.
  intros H p. specialize (H p). unfold nextp.
  destruct (rd st' p), (rd st p); unfold links in *; simpl in *; congruence.
Qed.

Lemma same_links_prevp st st' :
  same_field links st st' → ∀ p, prevp st' p = prevp st p.
Proof.
  intros H p. specialize (H p). unfold prevp.
  destruct (rd st' p), (rd st p); unfold links in *; simpl in *; congruence.
Qed.

Lemma dpath_ext f g f' g' p l q :
  (∀ x, f' x = f x) → (∀ x, g' x = g x) →
  dpath f g p l q → dpath f' g' p l q.
Proof.
  intros Hf Hg. revert p.
  induction l as [|x l IH]; intros p; simpl; rewrite ?Hf, ?Hg; [done|].
  intros (? & ? & ?). auto.
Qed.

Lemma list_inv_same_links st st' l :
  same_field links st st' → list_inv st l → list_inv st' l.
Proof.
  intros H (Hlen & Hperm & Hpath). split_and!; [|done|].
  - by rewrite (same_field_length _ _ _ H).
  - eapply dpath_ext; [apply (same_links_nextp _ _ H)
                      |apply (same_links_prevp _ _ H)|done].
Qed.

Lemma dpath_app f g p l1 x l2 q :
  dpath f g p (l1 ++ x :: l2) q ↔ dpath f g p l1 x ∧ dpath f g x l2 q.
Proof.
  revert p. induction l1 as [|a l1 IH]; intros p; simpl.
  - tauto.
  - rewrite IH. tauto.
Qed.

Lemma walk_app f p l1 x l2 q :
  walk f p (l1 ++ x :: l2) q ↔ walk f p l1 x ∧ walk f x l2 q.
Proof.
  revert p. induction l1 as [|a l1 IH]; intros p; simpl.
  - tauto.
  - rewrite IH. tauto.
Qed.

Lemma dpath_walk_fwd f g p l q : dpath f g p l q → walk f p l q.
Proof.
  revert p. induction l as [|x l IH]; intros p; simpl; [tauto|].
  intros (? & ? & ?). auto.
Qed.

Lemma dpath_walk_bwd f g p l q : dpath f g p l q → walk g q (reverse l) p.
Proof.
  revert p. induction l as [|x l IH]; intros p; simpl; [tauto|].
  intros (? & ? & ?). rewrite reverse_cons. apply walk_app. simpl. auto.
Qed.

Lemma walk_first f p l q : walk f p l q → f p = head (l ++ [q]).
Proof. destruct l; simpl; tauto. Qed.

Lemma dpath_first f g p l q : dpath f g p l q → f p = head (l ++ [q]).
Proof. intros H. by apply walk_first, dpath_walk_fwd with g. Qed.

Lemma dpath_last f g p l q : dpath f g p l q → g q = last (p :: l).
Proof.
  intros H%dpath_walk_bwd%walk_first. rewrite H.
  rewrite <-(reverse_involutive (p :: l)), last_reverse.
  by rewrite reverse_cons.
Qed.

(** Every node of a doubly linked path has its successor pointing back
    to it, and every node but the first is the successor of the node
    its back link names. *)
Lemma dpath_succ f g p l q x :
  dpath f g p l q → x ∈ p :: l →
  ∃ y, y ∈ l ++ [q] ∧ f x = Some y ∧ g y = Some x.
Proof.
  revert p. induction l as [|a l IH]; intros p; simpl.
  - intros [Hf Hg] ->%list_elem_of_singleton. exists q. set_solver.
  - intros (Hf & Hg & Hpath) [->|Hx]%elem_of_cons.
    + exists a. set_solver.
    + destruct (IH _ Hpath Hx) as (y & ? & ? & ?). exists y. set_solver.
Qed.

Lemma dpath_pred f g p l q y :
  dpath f g p l q → y ∈ l ++ [q] →
  ∃ x, x ∈ p :: l ∧ f x = Some y ∧ g y = Some x.
Proof.
  revert p. induction l as [|a l IH]; intros p; simpl.
  - intros [Hf Hg] ->%list_elem_of_singleton. exists p. set_solver.
  - intros (Hf & Hg & Hpath) [->|Hy]%elem_of_cons.
    + exists p. set_solver.
    + destruct (IH _ Hpath Hy) as (x & ? & ? & ?). exists x. set_solver.
Qed.

Lemma dpath_consistent f g l x y :
  dpath f g Head l Head → x ∈ Head :: l → y ∈ Head :: l →
  f x = Some y ↔ g y = Some x.
Proof.
  intros Hpath Hx Hy. split; intros H.
  - destruct (dpath_succ _ _ _ _ _ _ Hpath Hx) as (y' & _ & Hf & Hg).
    congruence.
  - assert (y ∈ l ++ [Head]) as Hy' by set_solver.
    destruct (dpath_pred _ _ _ _ _ _ Hpath Hy') as (x' & _ & Hf & Hg).
    congruence.
Qed.

Lemma dpath_frame f g f' g' p l q :
  (∀ x, x ∈ p :: l → f' x = f x) →
  (∀ y, y ∈ l ++ [q] → g' y = g y) →
  dpath f g p l q → dpath f' g' p l q.
Proof.
  revert p. induction l as [|a l IH]; intros p Hf Hg; simpl.
  - rewrite Hf, Hg by set_solver. done.
  - rewrite Hf, Hg by set_solver. intros (? & ? & ?). split_and!; [done..|].
    apply IH; [set_solver|set_solver|done].
Qed.

(** Unlinking: when the node [b] between the segments [a :: A] and [B]
    is bypassed, the two segments form one path. *)
Lemma dpath_bypass f g f' g' b B q P N :
  head (B ++ [q]) = Some N →
  f' P = Some N → g' N = Some P →
  dpath f g b B q →
  ∀ A a,
    last (a :: A) = Some P →
    NoDup (a :: A ++ B ++ [q]) →
    (∀ x, x ∈ a :: A ++ B → x ≠ P → f' x = f x) →
    (∀ y, y ∈ A ++ B ++ [q] → y ≠ N → g' y = g y) →
    dpath f g a A b →
    dpath f' g' a (A ++ B) q.
Proof.
  intros HN HfP HgN HB. induction A as [|a2 A IH]; intros a HP Hnd Hf Hg HA.
  - simpl in *. injection HP as ->. destruct B as [|y B]; simpl in *.
    + injection HN as ->. done.
    + injection HN as ->. destruct HB as (_ & _ & HB).
      split_and!; [done..|].
      apply NoDup_cons in Hnd as [Ha Hnd]. apply NoDup_cons in Hnd as [Hy _].
      eapply dpath_frame; [| |exact HB].
      * intros x Hx. apply Hf; set_solver.
      * intros z Hz. apply Hg; set_solver.
  - rewrite last_cons_cons in HP.
    simpl in HA. destruct HA as (Hfa & Hga & HA).
    apply NoDup_cons in Hnd as [Ha Hnd].
    assert (P ∈ a2 :: A) as HPin.
    { apply last_Some in HP as (l' & ->). set_solver. }
    assert (N ∈ B ++ [q]) as HNin.
    { destruct B; simpl in HN; injection HN as ->; set_solver. }
    simpl. split_and!.
    + rewrite Hf; [done|set_solver|]. intros ->. set_solver.
    + rewrite Hg; [done|set_solver|]. intros ->.
      simpl in Hnd. apply NoDup_cons in Hnd as [Hn _]. set_solver.
    + apply IH; [done|done| | |done].
      * intros x Hx. apply Hf. set_solver.
      * intros y Hy. apply Hg. set_solver.
Qed.

(** The six pointer assignments of [brelse], seen on the link maps:
    [b] moves from its place between [A] and [B] to the front. *)
Lemma dpath_move_to_front f g f' g' b A B N P Hn H1 :
  dpath f g Head (A ++ b :: B) Head →
  NoDup (Head :: A ++ b :: B) →
  f b = Some N → g b = Some P → f Head = Some Hn →
  H1 = (if decide (P = Head) then N else Hn) →
  (∀ q, f' q = if decide (q = Head) then Some b
               else if decide (q = b) then Some H1
               else if decide (q = P) then Some N else f q) →
  (∀ q, g' q = if decide (q = H1) then Some b
               else if decide (q = b) then Some Head
               else if decide (q = N) then Some P else g q) →
  dpath f' g' Head (b :: A ++ B) Head.
Proof.
  intros Hpath Hnd HfN HgP HfH HH1 Hf' Hg'.
  apply dpath_app in Hpath as [HA HB].
  pose proof (dpath_first _ _ _ _ _ HB) as HN. rewrite HfN in HN.
  pose proof (dpath_last _ _ _ _ _ HA) as HP. rewrite HgP in HP.
  pose proof (dpath_first _ _ _ _ _ HA) as HHn. rewrite HfH in HHn.
  symmetry in HN, HP, HHn.
  apply NoDup_cons in Hnd as [HHead Hnd].
  apply NoDup_app in Hnd as (HndA & HAB & HndB).
  apply NoDup_cons in HndB as [HbB HndB].
  assert (b ≠ Head) as HbH by (intros ->; set_solver).
  assert (b ∉ A) as HbA by (intros ?; set_solver).
  assert (N ∈ B ++ [Head]) as HNin.
  { destruct B; simpl in HN; injection HN as ->; set_solver. }
  assert (N ≠ b) as HNb by (intros ->; set_solver).
  destruct A as [|a A].
  - simpl in *. injection HP as <-. injection HHn as <-.
    rewrite decide_True in HH1 by done. subst H1.
    split_and!.
    + rewrite Hf'. by rewrite decide_True.
    + rewrite Hg'. rewrite decide_False by done. by rewrite decide_True.
    + destruct B as [|y B]; simpl in *; injection HN as <-.
      * split.
        -- rewrite Hf'. rewrite decide_False by done. by rewrite decide_True.
        -- rewrite Hg'. by rewrite decide_True.
      * destruct HB as (_ & _ & HB).
        apply NoDup_cons in HndB as [HyB _].
        split_and!.
        -- rewrite Hf'. rewrite decide_False by done. by rewrite decide_True.
        -- rewrite Hg'. by rewrite decide_True.
        -- eapply dpath_frame; [| |exact HB].
           ++ intros x Hx. rewrite Hf'.
              rewrite !decide_False; [done|..]; intros ->; set_solver.
           ++ intros z Hz. rewrite Hg'.
              rewrite !decide_False; [done|..]; intros ->; set_solver.
  - simpl in HHn. injection HHn as <-.
    assert (P ∈ a :: A) as HPin.
    { rewrite last_cons_cons in HP. apply last_Some in HP as (l' & ->).
      set_solver. }
    assert (P ≠ Head) as HPH by (intros ->; set_solver).
    assert (P ≠ b) as HPb by (intros ->; set_solver).
    rewrite decide_False in HH1 by done. subst H1.
    assert (a ≠ b) as Hab by (intros ->; set_solver).
    assert (a ≠ Head) as HaH by (intros ->; set_solver).
    assert (N ≠ a) as HNa.
    { intros ->. apply elem_of_app in HNin as [?|?%list_elem_of_singleton];
        [|done]. eapply HAB; [|by right]. set_solver. }
    simpl in HA. destruct HA as (_ & _ & HA).
    simpl. split_and!.
    + rewrite Hf'. by rewrite decide_True.
    + rewrite Hg'. rewrite decide_False by done. by rewrite decide_True.
    + rewrite Hf'. rewrite decide_False by done. by rewrite decide_True.
    + rewrite Hg'. by rewrite decide_True.
    + eapply (dpath_bypass f g f' g' b B Head P N); try done.
      * rewrite Hf'. rewrite !decide_False by done. by rewrite decide_True.
      * rewrite Hg'. rewrite !decide_False by done. by rewrite decide_True.
      * apply NoDup_cons. split.
        { rewrite !elem_of_app, list_elem_of_singleton.
          apply NoDup_cons in HndA as [? _]. intros [?|[?|?]]; [done| |done].
          eapply HAB; [by left|by right]. }
        apply NoDup_app. split_and!.
        -- by apply NoDup_cons in HndA as [_ ?].
        -- intros x Hx [HxB| ->%list_elem_of_singleton]%elem_of_app.
           ++ eapply HAB; [by right|by right].
           ++ set_solver.
        -- apply NoDup_app. split_and!; [done| |apply NoDup_singleton].
           intros x Hx ->%list_elem_of_singleton. set_solver.
      * intros x Hx HxP. rewrite Hf'.
        rewrite !decide_False; [done|done|..]; intros ->; set_solver.
      * intros y Hy HyN. rewrite Hg'.
        rewrite !decide_False; [done|done|..].
        -- intros ->. set_solver.
        -- intros ->. apply NoDup_cons in HndA as [HaA _].
           rewrite !elem_of_app, list_elem_of_singleton in Hy.
           destruct Hy as [?|[?|?]]; [done| |done].
           eapply HAB; [by left|by right].
Qed.

(** ** The pointer assignments, seen on the link maps *)

Lemma rd_is_Some_wr st p x q :
  is_Some (rd st p) → is_Some (rd (wr st p x) q) ↔ is_Some (rd st q).
Proof.
  intros [y Hy]. rewrite (rd_wr _ _ _ _ _ Hy). case_decide; [|done].
  subst q. rewrite Hy. split; eauto.
Qed.

Lemma update_next_step p v st :
  is_Some (rd st p) →
  ∃ st', update p (with_next v) st = Ok (tt, st') ∧
    (∀ q, nextp st' q = if decide (q = p) then Some v else nextp st q) ∧
    (∀ q, prevp st' q = prevp st q) ∧
    (∀ q, is_Some (rd st' q) ↔ is_Some (rd st q)) ∧
    bc_lock st' = bc_lock st.
Proof.
  intros [x Hx]. exists (wr st p (with_next v x)). split_and!.
  - by apply update_eq.
  - intros q. unfold nextp. rewrite (rd_wr _ _ _ _ _ Hx). by case_decide.
  - intros q. unfold prevp. rewrite (rd_wr _ _ _ _ _ Hx).
    case_decide; [|done]. subst q. by rewrite Hx.
  - intros q. apply rd_is_Some_wr. eauto.
  - apply bc_lock_wr.
Qed.

Lemma update_prev_step p v st :
  is_Some (rd st p) →
  ∃ st', update p (with_prev v) st = Ok (tt, st') ∧
    (∀ q, nextp st' q = nextp st q) ∧
    (∀ q, prevp st' q = if decide (q = p) then Some v else prevp st q) ∧
    (∀ q, is_Some (rd st' q) ↔ is_Some (rd st q)) ∧
    bc_lock st' = bc_lock st.
Proof.
  intros [x Hx]. exists (wr st p (with_prev v x)). split_and!.
  - by apply update_eq.
  - intros q. unfold nextp. rewrite (rd_wr _ _ _ _ _ Hx).
    case_decide; [|done]. subst q. by rewrite Hx.
  - intros q. unfold prevp. rewrite (rd_wr _ _ _ _ _ Hx). by case_decide.
  - intros q. apply rd_is_Some_wr. eauto.
  - apply bc_lock_wr.
Qed.

Lemma load_step p st n q :
  nextp st p = Some n → prevp st p = Some q →
  ∃ x, load p st = Ok (x, st) ∧ next x = n ∧ prev x = q.
Proof.
  unfold nextp, prevp, load. destruct (rd st p) as [x|]; simpl; [|done].
  intros [= <-] [= <-]. eauto.
Qed.

Lemma nextp_is_Some st p n : nextp st p = Some n → is_Some (rd st p).
Proof. unfold nextp. destruct (rd st p); [eauto|done]. Qed.

Lemma prevp_of_nextp st p n : nextp st p = Some n → is_Some (prevp st p).
Proof. unfold nextp, prevp. destruct (rd st p); simpl; [eauto|done]. Qed.

(** What the six assignments of [brelse] do to the two link maps. *)
Lemma brelse_move_spec b s N P Hn :
  b ≠ Head →
  nextp s b = Some N → prevp s b = Some P → nextp s Head = Some Hn →
  is_Some (rd s N) → is_Some (rd s P) → is_Some (rd s Hn) →
  let H1 := if decide (P = Head) then N else Hn in
  ∃ s', brelse_move b s = Ok (tt, s') ∧
    (∀ q, nextp s' q = if decide (q = Head) then Some b
                       else if decide (q = b) then Some H1
                       else if decide (q = P) then Some N else nextp s q) ∧
    (∀ q, prevp s' q = if decide (q = H1) then Some b
                       else if decide (q = b) then Some Head
                       else if decide (q = N) then Some P else prevp s q) ∧
    bc_lock s' = bc_lock s.
Proof.
  intros HbH HbN HbP HHn HvN HvP HvH H1.
  assert (is_Some (rd s b)) as Hvb by (by eapply nextp_is_Some).
  assert (is_Some (prevp s Head)) as [Hp HHp] by (by eapply prevp_of_nextp).
  (* b->next->prev = b->prev *)
  destruct (load_step b s N P HbN HbP) as (x1 & Hl1 & Hx1n & Hx1p).
  destruct (update_prev_step N P s HvN) as (s1 & Hu1 & Hn1 & Hp1 & Hv1 & Hk1).
  (* b->prev->next = b->next *)
  assert (prevp s1 b = Some P) as HbP1.
  { rewrite Hp1. by case_decide. }
  destruct (load_step b s1 N P) as (x2 & Hl2 & Hx2n & Hx2p);
    [by rewrite Hn1|done|].
  destruct (update_next_step P N s1) as (s2 & Hu2 & Hn2 & Hp2 & Hv2 & Hk2);
    [by apply Hv1|].
  (* b->next = bcache.head.next *)
  assert (nextp s2 Head = Some H1) as HH2.
  { rewrite Hn2, Hn1. unfold H1. destruct (decide (Head = P)) as [<-|Hne].
    - by rewrite decide_True.
    - by rewrite decide_False by congruence. }
  assert (is_Some (prevp s2 Head)) as [Hp2' HHp2] by (by eapply prevp_of_nextp).
  destruct (load_step Head s2 H1 Hp2') as (h3 & Hl3 & Hh3n & _); [done..|].
  destruct (update_next_step b H1 s2) as (s3 & Hu3 & Hn3 & Hp3 & Hv3 & Hk3);
    [by apply Hv2, Hv1|].
  (* b->prev = &bcache.head *)
  destruct (update_prev_step b Head s3) as (s4 & Hu4 & Hn4 & Hp4 & Hv4 & Hk4);
    [by apply Hv3, Hv2, Hv1|].
  (* bcache.head.next->prev = b *)
  assert (nextp s4 Head = Some H1) as HH4.
  { rewrite Hn4, Hn3. by rewrite decide_False. }
  assert (is_Some (prevp s4 Head)) as [Hp4' HHp4] by (by eapply prevp_of_nextp).
  destruct (load_step Head s4 H1 Hp4') as (h5 & Hl5 & Hh5n & _); [done..|].
  assert (is_Some (rd s H1)) as HvH1 by (unfold H1; by case_decide).
  destruct (update_prev_step H1 b s4) as (s5 & Hu5 & Hn5 & Hp5 & Hv5 & Hk5);
    [by apply Hv4, Hv3, Hv2, Hv1|].
  (* bcache.head.next = b *)
  destruct (update_next_step Head b s5) as (s6 & Hu6 & Hn6 & Hp6 & Hv6 & Hk6);
    [done|].
  exists s6. split_and!.
  - unfold brelse_move.
    rewrite (bind_eq _ _ _ _ _ Hl1), Hx1n, Hx1p, (bind_eq _ _ _ _ _ Hu1).
    rewrite (bind_eq _ _ _ _ _ Hl2), Hx2n, Hx2p, (bind_eq _ _ _ _ _ Hu2).
    rewrite (bind_eq _ _ _ _ _ Hl3), Hh3n, (bind_eq _ _ _ _ _ Hu3).
    rewrite (bind_eq _ _ _ _ _ Hu4).
    rewrite (bind_eq _ _ _ _ _ Hl5), Hh5n, (bind_eq _ _ _ _ _ Hu5).
    exact Hu6.
  - intros q. rewrite Hn6, Hn5, Hn4, Hn3, Hn2, Hn1. done.
  - intros q. rewrite Hp6, Hp5, Hp4, Hp3, Hp2, Hp1. done.
  - congruence.
Qed.

(** ** brelse, statement by statement *)

Lemma ptr_neqb_false p q : ptr_neqb p q = false ↔ p = q.
Proof.
  unfold ptr_neqb. rewrite bool_decide_eq_false.
  destruct (decide (p = q)); naive_solver.
Qed.

Lemma brelse_check_ok b mru s u s' :
  brelse_check b mru s = Ok (u, s') ↔
  s' = s ∧ nextp s Head = Some b ∧ prevp s b = Some Head ∧
  nextp s b = Some mru ∧ prevp s mru = Some b.
Proof.
  unfold brelse_check. split.
  - intros H.
    apply bind_ok in H as (h & s1 & [Hh ->]%load_ok & H).
    apply bind_ok in H as (? & s2 & [E1%ptr_neqb_false ->]%error_if_ok & H).
    apply bind_ok in H as (x1 & s3 & [Hx1 ->]%load_ok & H).
    apply bind_ok in H as (? & s4 & [E2%ptr_neqb_false ->]%error_if_ok & H).
    apply bind_ok in H as (x2 & s5 & [Hx2 ->]%load_ok & H).
    apply bind_ok in H as (? & s6 & [E3%ptr_neqb_false ->]%error_if_ok & H).
    apply bind_ok in H as (m & s7 & [Hm ->]%load_ok & H).
    apply error_if_ok in H as [E4%ptr_neqb_false ->].
    unfold nextp, prevp. rewrite Hh, Hx1, Hm. simpl.
    rewrite Hx1 in Hx2. injection Hx2 as <-. by rewrite E1, E2, E3, E4.
  - intros (-> & H1 & H2 & H3 & H4). destruct u.
    unfold nextp, prevp in *.
    destruct (rd s Head) as [h|] eqn:Hh; [|done].
    destruct (rd s b) as [x|] eqn:Hx; [|done].
    destruct (rd s mru) as [m|] eqn:Hm; [|done].
    simpl in H1, H2, H3, H4.
    injection H1 as H1. injection H2 as H2.
    injection H3 as H3. injection H4 as H4.
    rewrite (bind_eq _ _ _ _ _ (load_eq _ _ _ Hh)).
    apply ptr_neqb_false in H1 as ->.
    rewrite (bind_eq _ _ _ _ _ (eq_refl : error_if false s = Ok (tt, s))).
    rewrite (bind_eq _ _ _ _ _ (load_eq _ _ _ Hx)).
    apply ptr_neqb_false in H2 as ->.
    rewrite (bind_eq _ _ _ _ _ (eq_refl : error_if false s = Ok (tt, s))).
    rewrite (bind_eq _ _ _ _ _ (load_eq _ _ _ Hx)).
    apply ptr_neqb_false in H3 as ->.
    rewrite (bind_eq _ _ _ _ _ (eq_refl : error_if false s = Ok (tt, s))).
    rewrite (bind_eq _ _ _ _ _ (load_eq _ _ _ Hm)).
    apply ptr_neqb_false in H4 as ->.
    done.
Qed.

Lemma brelse_move_keeps_payload b : keeps (same_field payload) (brelse_move b).
Proof. unfold brelse_move. keeps_auto. Qed.

Lemma same_payload_refcnt s s' p x :
  same_field payload s s' → rd s p = Some x →
  ∃ x', rd s' p = Some x' ∧ refcnt x' = refcnt x ∧ lock x' = lock x.
Proof.
  intros H Hx. specialize (H p). rewrite Hx in H.
  destruct (rd s' p) as [x'|]; [|done]. exists x'.
  unfold payload in H. simpl in H. by simplify_eq.
Qed.

Lemma brelse_dec_rd b x st :
  rd st b = Some x →
  rd (brelse_dec b x st) b = Some (with_refcnt (uint_wrap (refcnt x - 1)) x).
Proof.
  intros Hx. unfold brelse_dec. apply rd_wr_eq.
  rewrite rd_set_bc_lock. eauto.
Qed.

Lemma brelse_dec_lock b x st : bc_lock (brelse_dec b x st) = 1.
Proof. unfold brelse_dec. by rewrite bc_lock_wr. Qed.

Lemma brelse_dec_links b x st :
  rd st b = Some x → same_field links st (brelse_dec b x st).
Proof.
  intros Hx p. unfold brelse_dec.
  erewrite rd_wr by (rewrite rd_set_bc_lock; exact Hx).
  rewrite rd_set_bc_lock. case_decide; [|done]. subst p. by rewrite Hx.
Qed.

(** A normal return of [brelse], characterised. *)
Lemma brelse_ok b st u st' :
  brelse b st = Ok (u, st') ↔
  ∃ x h s4,
    bc_lock st ≠ 1 ∧ rd st b = Some x ∧
    rd (brelse_dec b x st) Head = Some h ∧
    (if uint_wrap (refcnt x - 1) =? 0
     then brelse_move b (brelse_dec b x st) = Ok (tt, s4) ∧
          brelse_check b (next h) s4 = Ok (tt, s4)
     else s4 = brelse_dec b x st) ∧
    st' = set_bc_lock 0 s4.
Proof.
  unfold brelse. cbv zeta. split.
  - intros H.
    apply bind_ok in H as (l & s0 & [-> ->]%get_lock_ok & H).
    apply bind_ok in H as (u1 & s1 & [Hl%Z.eqb_neq ->]%error_if_ok & H).
    apply bind_ok in H as (u2 & s2 & ->%put_lock_ok & H).
    apply bind_ok in H as (u3 & s3 & (x & Hx & ->)%update_ok & H).
    rewrite rd_set_bc_lock in Hx.
    apply bind_ok in H as (h & sh & [Hh ->]%load_ok & H).
    apply bind_ok in H as (x' & sx & [Hx' ->]%load_ok & H).
    fold (brelse_dec b x st) in *.
    rewrite (brelse_dec_rd _ _ _ Hx) in Hx'. injection Hx' as <-. simpl in H.
    apply bind_ok in H as ([] & s4 & Hmove & H).
    apply bind_ok in H as (x'' & sx' & [Hx'' ->]%load_ok & H).
    apply bind_ok in H as ([] & s5 & Hcheck & H).
    apply bind_ok in H as (l & sl & [-> ->]%get_lock_ok & H).
    apply bind_ok in H as (u4 & s6 & [_ ->]%error_if_ok & H).
    apply put_lock_ok in H as ->.
    exists x, h. destruct (uint_wrap (refcnt x - 1) =? 0) eqn:E.
    + pose proof (brelse_move_keeps_payload _ _ _ _ Hmove) as Hpay.
      destruct (same_payload_refcnt _ _ _ _ Hpay (brelse_dec_rd _ _ _ Hx))
        as (y & Hy & Hr & _).
      rewrite Hx'' in Hy. injection Hy as <-. rewrite Hr in Hcheck.
      simpl in Hcheck. rewrite E in Hcheck.
      pose proof Hcheck as [-> _]%brelse_check_ok.
      by exists s4.
    + apply mret_ok in Hmove as [_ ->].
      rewrite (brelse_dec_rd _ _ _ Hx) in Hx''. injection Hx'' as <-.
      simpl in Hcheck. rewrite E in Hcheck. apply mret_ok in Hcheck as [_ ->].
      by exists (brelse_dec b x st).
  - intros (x & h & s4 & Hl & Hx & Hh & Hif & ->). destruct u.
    rewrite (bind_eq _ _ _ _ _ (eq_refl : get_lock st = Ok (bc_lock st, st))).
    apply Z.eqb_neq in Hl. rewrite Hl.
    rewrite (bind_eq _ _ _ _ _ (eq_refl : error_if false st = Ok (tt, st))).
    rewrite (bind_eq _ _ _ _ _
      (eq_refl : put_lock 1 st = Ok (tt, set_bc_lock 1 st))).
    erewrite bind_eq by (apply update_eq; rewrite rd_set_bc_lock; exact Hx).
    fold (brelse_dec b x st).
    rewrite (bind_eq _ _ _ _ _ (load_eq _ _ _ Hh)).
    rewrite (bind_eq _ _ _ _ _ (load_eq _ _ _ (brelse_dec_rd _ _ _ Hx))).
    simpl. destruct (uint_wrap (refcnt x - 1) =? 0) eqn:E.
    + destruct Hif as [Hmove Hcheck].
      rewrite (bind_eq _ _ _ _ _ Hmove).
      pose proof (brelse_move_keeps_payload _ _ _ _ Hmove) as Hpay.
      destruct (same_payload_refcnt _ _ _ _ Hpay (brelse_dec_rd _ _ _ Hx))
        as (y & Hy & Hr & _).
      rewrite (bind_eq _ _ _ _ _ (load_eq _ _ _ Hy)).
      rewrite Hr. simpl. rewrite E.
      rewrite (bind_eq _ _ _ _ _ Hcheck).
      assert (bc_lock s4 = 1) as Hl4.
      { unfold brelse_move in Hmove.
        repeat (apply bind_ok in Hmove as (? & ? & ?%load_ok & Hmove)
                || apply bind_ok in Hmove as (? & ? & ?%update_ok & Hmove)).
        apply update_ok in Hmove. unfold brelse_dec in *.
        destruct_and?. repeat match goal with H : ∃ _, _ |- _ => destruct H end.
        destruct_and?. subst. by rewrite !bc_lock_wr. }
      rewrite (bind_eq _ _ _ _ _ (eq_refl : get_lock s4 = Ok (bc_lock s4, s4))).
      rewrite Hl4. done.
    + subst s4.
      rewrite (bind_eq _ _ _ _ _ (mret_eq tt _)).
      rewrite (bind_eq _ _ _ _ _ (load_eq _ _ _ (brelse_dec_rd _ _ _ Hx))).
      simpl. rewrite E.
      rewrite (bind_eq _ _ _ _ _ (mret_eq tt _)).
      rewrite (bind_eq _ _ _ _ _ (eq_refl : get_lock _ = Ok (bc_lock _, _))).
      by rewrite brelse_dec_lock.
Qed.

(** ** The two scans of bget *)

Lemma scan_ok link test found fuel c st r st' :
  scan link test found fuel c st = Ok (r, st') →
  (r = None ∧ st' = st) ∨
  (∃ b x, b ≠ Head ∧ rd st b = Some x ∧ test x = true ∧
          found b st = Ok (r, st')).
Proof.
  revert c. induction fuel as [|fuel IH]; intros c; simpl; [done|].
  case_bool_decide as Hc.
  - intros [-> ->]%mret_ok. by left.
  - intros (x & s1 & [Hx ->]%load_ok & H)%bind_ok.
    destruct (test x) eqn:E; [|by eapply IH].
    right. by exists c, x.
Qed.

Lemma scan_walk_none link test found st l :
  ∀ fuel p c,
    walk (λ p, link <$> rd st p) p (Buf <$> l) Head →
    link <$> rd st p = Some c →
    Forall (λ i, test_at st test i = false) l →
    (length l < fuel)%nat →
    scan link test found fuel c st = Ok (None, st).
Proof.
  induction l as [|i l IH]; intros fuel p c Hwalk Hc Hall Hfuel.
  - simpl in Hwalk. rewrite Hwalk in Hc. injection Hc as <-.
    destruct fuel; [simpl in Hfuel; lia|]. done.
  - rewrite fmap_cons in Hwalk. destruct Hwalk as [Hp Hwalk].
    rewrite Hp in Hc. injection Hc as <-.
    destruct fuel as [|fuel]; [simpl in Hfuel; lia|]. simpl.
    apply Forall_cons in Hall as [Hi Hall].
    pose proof (walk_first _ _ _ _ Hwalk) as Hnext. simpl in Hnext.
    unfold test_at in Hi.
    destruct (bc_buf st !! i) as [x|] eqn:Hx; [|by destruct l]. simpl in *.
    rewrite (bind_eq _ _ _ _ _ (load_eq (Buf i) st x Hx)). rewrite Hi.
    eapply IH; [exact Hwalk|by simpl; rewrite Hx|done|lia].
Qed.

Lemma scan_walk_found link test found st l1 i l2 :
  ∀ fuel p c,
    walk (λ p, link <$> rd st p) p (Buf <$> (l1 ++ i :: l2)) Head →
    link <$> rd st p = Some c →
    Forall (λ j, test_at st test j = false) l1 →
    test_at st test i = true →
    (length l1 < fuel)%nat →
    scan link test found fuel c st = found (Buf i) st.
Proof.
  induction l1 as [|j l1 IH]; intros fuel p c Hwalk Hc Hall Hi Hfuel.
  - simpl in Hwalk. destruct Hwalk as [Hp Hwalk].
    rewrite Hp in Hc. injection Hc as <-.
    destruct fuel as [|fuel]; [simpl in Hfuel; lia|]. simpl.
    unfold test_at in Hi.
    destruct (bc_buf st !! i) as [x|] eqn:Hx; [|done]. simpl in *.
    rewrite (bind_eq _ _ _ _ _ (load_eq (Buf i) st x Hx)). by rewrite Hi.
  - simpl in Hwalk. destruct Hwalk as [Hp Hwalk].
    rewrite Hp in Hc. injection Hc as <-.
    destruct fuel as [|fuel]; [simpl in Hfuel; lia|]. simpl.
    apply Forall_cons in Hall as [Hj Hall].
    pose proof (walk_first _ _ _ _ Hwalk) as Hnext. simpl in Hnext.
    unfold test_at in Hj.
    destruct (bc_buf st !! j) as [x|] eqn:Hx; [|by destruct l1]. simpl in *.
    rewrite (bind_eq _ _ _ _ _ (load_eq (Buf j) st x Hx)). rewrite Hj.
    eapply IH; [exact Hwalk|by simpl; rewrite Hx|done|done|simpl in Hfuel; lia].
Qed.

Lemma traverse_walk sel st l :
  ∀ fuel p c,
    walk (λ p, sel <$> rd st p) p (Buf <$> l) Head →
    sel <$> rd st p = Some c →
    (length l < fuel)%nat →
    traverse sel fuel st c = Some l.
Proof.
  induction l as [|i l IH]; intros fuel p c Hwalk Hc Hfuel.
  - simpl in Hwalk. rewrite Hwalk in Hc. injection Hc as <-.
    destruct fuel; [simpl in Hfuel; lia|]. done.
  - rewrite fmap_cons in Hwalk. destruct Hwalk as [Hp Hwalk].
    rewrite Hp in Hc. injection Hc as <-.
    destruct fuel as [|fuel]; [simpl in Hfuel; lia|]. simpl.
    pose proof (walk_first _ _ _ _ Hwalk) as Hnext. simpl in Hnext.
    destruct (bc_buf st !! i) as [x|] eqn:Hx; [|by destruct l]. simpl in *.
    erewrite IH; [done|exact Hwalk|by simpl; rewrite Hx|lia].
Qed.

(** ** Algebra of stores *)

Lemma wr_wr st p x y : wr (wr st p x) p y = wr st p y.
Proof.
  destruct p as [|i|]; simpl; [done| |done].
  by rewrite list_insert_insert_eq.
Qed.

Lemma set_bc_lock_wr v st p x :
  set_bc_lock v (wr st p x) = wr (set_bc_lock v st) p x.
Proof. by destruct p. Qed.

Lemma bget_return_eq b st x :
  bc_lock st ≠ 0 → rd st b = Some x →
  bget_return b st = Ok (Some b, wr (set_bc_lock 0 st) b (with_lock 1 x)).
Proof.
  intros Hl Hx. unfold bget_return.
  rewrite (bind_eq _ _ _ _ _ (eq_refl : get_lock st = Ok (bc_lock st, st))).
  apply Z.eqb_neq in Hl. rewrite Hl.
  rewrite (bind_eq _ _ _ _ _ (eq_refl : error_if false st = Ok (tt, st))).
  rewrite (bind_eq _ _ _ _ _
    (eq_refl : put_lock 0 st = Ok (tt, set_bc_lock 0 st))).
  erewrite bind_eq by (apply update_eq; rewrite rd_set_bc_lock; exact Hx).
  done.
Qed.

Lemma bget_return_ok b st r st' :
  bget_return b st = Ok (r, st') →
  ∃ x, rd st b = Some x ∧ r = Some b ∧
       st' = wr (set_bc_lock 0 st) b (with_lock 1 x).
Proof.
  unfold bget_return. intros H.
  apply bind_ok in H as (l & s0 & [-> ->]%get_lock_ok & H).
  apply bind_ok in H as (u1 & s1 & [Hl ->]%error_if_ok & H).
  apply bind_ok in H as (u2 & s2 & ->%put_lock_ok & H).
  apply bind_ok in H as (u3 & s3 & (x & Hx & ->)%update_ok & H).
  apply mret_ok in H as [-> ->]. rewrite rd_set_bc_lock in Hx. eauto.
Qed.

Lemma bget_hit_eq b st x :
  bc_lock st ≠ 0 → rd st b = Some x →
  bget_hit b st = Ok (Some b, wr (set_bc_lock 0 st) b (hit_buf x)).
Proof.
  intros Hl Hx. unfold bget_hit.
  rewrite (bind_eq _ _ _ _ _ (update_eq _ _ _ _ Hx)).
  erewrite bget_return_eq;
    [|by rewrite bc_lock_wr|apply rd_wr_eq; eauto].
  by rewrite set_bc_lock_wr, wr_wr.
Qed.

Lemma bget_hit_ok b st r st' :
  bget_hit b st = Ok (r, st') →
  ∃ x, rd st b = Some x ∧ r = Some b ∧
       st' = wr (set_bc_lock 0 st) b (hit_buf x).
Proof.
  unfold bget_hit. intros H.
  apply bind_ok in H as (u1 & s1 & (x & Hx & ->)%update_ok & H).
  apply bget_return_ok in H as (y & Hy & -> & ->).
  rewrite rd_wr_eq in Hy by eauto. injection Hy as <-.
  exists x. by rewrite set_bc_lock_wr, wr_wr.
Qed.

Lemma bget_rebind_eq d bn b st x :
  bc_lock st ≠ 0 → rd st b = Some x →
  bget_rebind d bn b st =
    Ok (Some b, wr (set_bc_lock 0 st) b (rebound_buf d bn x)).
Proof.
  intros Hl Hx. unfold bget_rebind.
  rewrite (bind_eq _ _ _ _ _ (update_eq _ _ _ _ Hx)).
  erewrite bind_eq by (apply update_eq, rd_wr_eq; eauto). rewrite wr_wr.
  erewrite bind_eq by (apply update_eq, rd_wr_eq; eauto). rewrite wr_wr.
  erewrite bind_eq by (apply update_eq, rd_wr_eq; eauto). rewrite wr_wr.
  erewrite bind_eq by (apply update_eq, rd_wr_eq; eauto). rewrite wr_wr.
  erewrite bget_return_eq;
    [|by rewrite bc_lock_wr|apply rd_wr_eq; eauto].
  by rewrite set_bc_lock_wr, wr_wr.
Qed.

Lemma bget_rebind_ok d bn b st r st' :
  bget_rebind d bn b st = Ok (r, st') →
  ∃ x, rd st b = Some x ∧ r = Some b ∧
       st' = wr (set_bc_lock 0 st) b (rebound_buf d bn x).
Proof.
  unfold bget_rebind. intros H.
  apply bind_ok in H as (u1 & s1 & (x & Hx & ->)%update_ok & H).
  apply bind_ok in H as (u2 & s2 & (x2 & Hx2 & ->)%update_ok & H).
  rewrite rd_wr_eq in Hx2 by eauto. injection Hx2 as <-. rewrite wr_wr in H.
  apply bind_ok in H as (u3 & s3 & (x3 & Hx3 & ->)%update_ok & H).
  rewrite rd_wr_eq in Hx3 by eauto. injection Hx3 as <-. rewrite wr_wr in H.
  apply bind_ok in H as (u4 & s4 & (x4 & Hx4 & ->)%update_ok & H).
  rewrite rd_wr_eq in Hx4 by eauto. injection Hx4 as <-. rewrite wr_wr in H.
  apply bind_ok in H as (u5 & s5 & (x5 & Hx5 & ->)%update_ok & H).
  rewrite rd_wr_eq in Hx5 by eauto. injection Hx5 as <-. rewrite wr_wr in H.
  apply bget_return_ok in H as (y & Hy & -> & ->).
  rewrite rd_wr_eq in Hy by eauto. injection Hy as <-.
  exists x. by rewrite set_bc_lock_wr, wr_wr.
Qed.

(** ** bget as a whole *)

Lemma list_inv_length st l : list_inv st l → length l = NBUF.
Proof. intros (_ & Hperm & _). by rewrite Hperm, length_seq. Qed.

Lemma list_inv_walk_next st l :
  list_inv st l → walk (λ p, next <$> rd st p) Head (Buf <$> l) Head.
Proof. intros (_ & _ & Hpath). by eapply dpath_walk_fwd. Qed.

Lemma list_inv_walk_prev st l :
  list_inv st l → walk (λ p, prev <$> rd st p) Head (Buf <$> reverse l) Head.
Proof.
  intros (_ & _ & Hpath). rewrite fmap_reverse. by eapply dpath_walk_bwd.
Qed.

Lemma list_inv_set_bc_lock v st l : list_inv st l → list_inv (set_bc_lock v st) l.
Proof.
  apply list_inv_same_links. intros p. by rewrite rd_set_bc_lock.
Qed.

(** Every normal return of [bget] is one of three: nothing found, a
    hit on a buffer bound to the block, or the rebinding of a buffer
    that passed the recycling test. *)
Lemma bget_inv fuel d bn st b st' :
  bget fuel d bn st = Ok (b, st') →
  bc_lock st ≠ 1 ∧
  ((b = Null ∧ st' = set_bc_lock 1 st) ∨
   (∃ x, b ≠ Head ∧ rd st b = Some x ∧ is_block d bn x = true ∧
         st' = wr (set_bc_lock 0 st) b (hit_buf x)) ∨
   (∃ x, b ≠ Head ∧ rd st b = Some x ∧ recyclable x = true ∧
         st' = wr (set_bc_lock 0 st) b (rebound_buf d bn x))).
Proof.
  unfold bget, bget_cached, bget_recycle. intros H.
  apply bind_ok in H as (l & s0 & [-> ->]%get_lock_ok & H).
  apply bind_ok in H as (u1 & s1 & [Hl%Z.eqb_neq ->]%error_if_ok & H).
  apply bind_ok in H as (u2 & s2 & ->%put_lock_ok & H).
  apply bind_ok in H as (h & sh & [Hh ->]%load_ok & H).
  apply bind_ok in H as (r & s3 & Hscan & H).
  split; [done|].
  apply scan_ok in Hscan as [[-> ->]|(c & x & Hc & Hx & Ht & Hfound)].
  - apply bind_ok in H as (h' & sh' & [Hh' ->]%load_ok & H).
    apply bind_ok in H as (r & s4 & Hscan & H).
    apply scan_ok in Hscan as [[-> ->]|(c & x & Hc & Hx & Ht & Hfound)].
    + apply mret_ok in H as [-> ->]. by left.
    + apply bget_rebind_ok in Hfound as (y & Hy & -> & ->).
      apply mret_ok in H as [-> ->].
      rewrite Hx in Hy. injection Hy as <-. rewrite rd_set_bc_lock in Hx.
      right. right. by exists x.
  - apply bget_hit_ok in Hfound as (y & Hy & -> & ->).
    apply mret_ok in H as [-> ->].
    rewrite Hx in Hy. injection Hy as <-. rewrite rd_set_bc_lock in Hx.
    right. left. by exists x.
Qed.

Lemma bget_start fuel d bn st :
  bc_lock st ≠ 1 →
  bget fuel d bn st =
  (r ← bget_cached fuel d bn (next (bc_head st));
   match r with
   | Some b => mret b
   | None =>
       h ← load Head;
       r ← bget_recycle fuel d bn (prev h);
       match r with
       | Some b => mret b
       | None => mret Null
       end
   end) (set_bc_lock 1 st).
Proof.
  intros Hl%Z.eqb_neq. unfold bget.
  rewrite (bind_eq _ _ _ _ _ (eq_refl : get_lock st = Ok (bc_lock st, st))).
  rewrite Hl.
  rewrite (bind_eq _ _ _ _ _ (eq_refl : error_if false st = Ok (tt, st))).
  rewrite (bind_eq _ _ _ _ _
    (eq_refl : put_lock 1 st = Ok (tt, set_bc_lock 1 st))).
  by rewrite (bind_eq _ _ _ _ _
    (eq_refl : load Head (set_bc_lock 1 st) = Ok (bc_head st, set_bc_lock 1 st))).
Qed.

(** Cache hit: the first buffer, from the most-recently-used end, that
    is bound to the block. *)
Lemma bget_hit_spec st l fuel d bn l1 i l2 x :
  list_inv st l → bc_lock st ≠ 1 → (NBUF < fuel)%nat →
  l = l1 ++ i :: l2 →
  Forall (λ j, test_at st (is_block d bn) j = false) l1 →
  bc_buf st !! i = Some x → is_block d bn x = true →
  bget fuel d bn st = Ok (Buf i, wr (set_bc_lock 0 st) (Buf i) (hit_buf x)).
Proof.
  intros Hinv Hl Hfuel -> Hl1 Hx Hi.
  pose proof (list_inv_length _ _ Hinv) as Hlen. rewrite length_app in Hlen.
  rewrite bget_start by done. unfold bget_cached.
  apply (list_inv_set_bc_lock 1) in Hinv. apply list_inv_walk_next in Hinv.
  assert (test_at (set_bc_lock 1 st) (is_block d bn) i = true) as Hti.
  { unfold test_at. simpl. by rewrite Hx. }
  erewrite bind_eq; [|erewrite scan_walk_found;
    [by apply bget_hit_eq|exact Hinv|done|done|done|lia]].
  done.
Qed.

(** Cache miss: the first buffer, from the least-recently-used end,
    that passes the recycling test. *)
Lemma bget_miss_spec st l fuel d bn l1 i l2 x :
  list_inv st l → bc_lock st ≠ 1 → (NBUF < fuel)%nat →
  Forall (λ j, test_at st (is_block d bn) j = false) l →
  reverse l = l1 ++ i :: l2 →
  Forall (λ j, test_at st recyclable j = false) l1 →
  bc_buf st !! i = Some x → recyclable x = true →
  bget fuel d bn st =
    Ok (Buf i, wr (set_bc_lock 0 st) (Buf i) (rebound_buf d bn x)).
Proof.
  intros Hinv Hl Hfuel Hnone Hrev Hl1 Hx Hi.
  pose proof (list_inv_length _ _ Hinv) as Hlen.
  assert (length l1 < fuel)%nat as Hlen1.
  { rewrite <-length_reverse, Hrev, length_app in Hlen. lia. }
  rewrite bget_start by done. unfold bget_cached, bget_recycle.
  apply (list_inv_set_bc_lock 1) in Hinv.
  pose proof (list_inv_walk_next _ _ Hinv) as Hnext.
  pose proof (list_inv_walk_prev _ _ Hinv) as Hprev. rewrite Hrev in Hprev.
  assert (test_at (set_bc_lock 1 st) recyclable i = true) as Hti.
  { unfold test_at. simpl. by rewrite Hx. }
  erewrite bind_eq; [|eapply scan_walk_none; [exact Hnext|done|done|lia]].
  cbv beta iota.
  erewrite bind_eq; [|by apply load_eq].
  erewrite bind_eq; [|erewrite scan_walk_found;
    [by apply bget_rebind_eq|exact Hprev|done|done|done|done]].
  done.
Qed.

(** Saturation: nothing bound to the block, nothing to recycle. *)
Lemma bget_none_spec st l fuel d bn :
  list_inv st l → bc_lock st ≠ 1 → (NBUF < fuel)%nat →
  Forall (λ j, test_at st (is_block d bn) j = false) l →
  Forall (λ j, test_at st recyclable j = false) l →
  bget fuel d bn st = Ok (Null, set_bc_lock 1 st).
Proof.
  intros Hinv Hl Hfuel Hnone Hnone'.
  pose proof (list_inv_length _ _ Hinv) as Hlen.
  rewrite bget_start by done. unfold bget_cached, bget_recycle.
  apply (list_inv_set_bc_lock 1) in Hinv.
  pose proof (list_inv_walk_next _ _ Hinv) as Hnext.
  pose proof (list_inv_walk_prev _ _ Hinv) as Hprev.
  erewrite bind_eq; [|eapply scan_walk_none; [exact Hnext|done|done|lia]].
  cbv beta iota.
  erewrite bind_eq; [|by apply load_eq].
  erewrite bind_eq; [|eapply scan_walk_none;
    [exact Hprev|done|by apply Forall_reverse|rewrite length_reverse; lia]].
  done.
Qed.

(** ** brelse on a well-formed list *)

Lemma prevp_is_Some st p n : prevp st p = Some n → is_Some (rd st p).
Proof. unfold prevp. destruct (rd st p); [eauto|done]. Qed.

Lemma list_inv_NoDup st l : list_inv st l → NoDup (Head :: (Buf <$> l)).
Proof.
  intros (_ & Hperm & _). apply NoDup_cons. split.
  - intros (i & ? & _)%list_elem_of_fmap. done.
  - apply NoDup_fmap_2; [by intros ?? [=]|].
    rewrite Hperm. apply NoDup_seq.
Qed.

Lemma list_inv_elem st l i : list_inv st l → i ∈ l ↔ (i < NBUF)%nat.
Proof. intros (_ & Hperm & _). rewrite Hperm, elem_of_seq. lia. Qed.

Lemma head_snoc_is_Some {A} (l : list A) (x : A) : is_Some (head (l ++ [x])).
Proof. destruct l; simpl; eauto. Qed.

Lemma head_snoc_elem {A} (l : list A) (x y : A) :
  head (l ++ [x]) = Some y → y ∈ l ++ [x].
Proof. destruct l; simpl; intros [= ->]; set_solver. Qed.

Lemma brelse_move_inv s l1 i l2 :
  list_inv s (l1 ++ i :: l2) →
  ∃ s', brelse_move (Buf i) s = Ok (tt, s') ∧
        list_inv s' (i :: l1 ++ l2) ∧ bc_lock s' = bc_lock s.
Proof.
  intros Hinv. pose proof (list_inv_NoDup _ _ Hinv) as Hnd.
  destruct Hinv as (Hlen & Hperm & Hpath).
  rewrite fmap_app, fmap_cons in Hpath, Hnd.
  set (A := Buf <$> l1) in *. set (B := Buf <$> l2) in *.
  pose proof Hpath as [HA HB]%dpath_app.
  destruct (head_snoc_is_Some B Head) as [N HN].
  destruct (head_snoc_is_Some A (Buf i)) as [Hn HHn].
  assert (is_Some (last (Head :: A))) as [P HP].
  { rewrite last_cons. destruct (last A); eauto. }
  pose proof (dpath_first _ _ _ _ _ HB) as HbN. rewrite HN in HbN.
  pose proof (dpath_first _ _ _ _ _ HA) as HhN. rewrite HHn in HhN.
  pose proof (dpath_last _ _ _ _ _ HA) as HbP. rewrite HP in HbP.
  assert (is_Some (rd s N)) as HvN.
  { destruct (dpath_pred _ _ _ _ _ N HB) as (? & _ & _ & ?);
      [by apply head_snoc_elem|by eapply prevp_is_Some]. }
  assert (is_Some (rd s Hn)) as HvH.
  { destruct (dpath_pred _ _ _ _ _ Hn HA) as (? & _ & _ & ?);
      [by apply head_snoc_elem|by eapply prevp_is_Some]. }
  assert (is_Some (rd s P)) as HvP.
  { destruct (dpath_succ _ _ _ _ _ P HA) as (? & _ & ? & _).
    - apply last_Some in HP as (l' & ->). set_solver.
    - by eapply nextp_is_Some. }
  destruct (brelse_move_spec (Buf i) s N P Hn)
    as (s' & Hmove & Hn' & Hp' & Hlock); [done..|].
  exists s'. split_and!; [done| |done].
  pose proof (brelse_move_keeps_payload _ _ _ _ Hmove) as Hpay.
  split_and!.
  - by rewrite (same_field_length _ _ _ Hpay).
  - by rewrite <-Hperm, Permutation_middle.
  - rewrite fmap_cons, fmap_app. fold A B.
    eapply (dpath_move_to_front (nextp s) (prevp s)); done.
Qed.

Lemma dpath_second f g p x l q :
  dpath f g p (x :: l) q → f x = head (l ++ [q]).
Proof. intros (_ & _ & H). by eapply dpath_first. Qed.

(** Promotion: releasing the last reference to a buffer that is not
    already the most recently used one returns normally and moves the
    buffer to the front. *)
Lemma brelse_promote_spec st l1 i l2 x :
  list_inv st (l1 ++ i :: l2) → bc_lock st ≠ 1 → l1 ≠ [] →
  bc_buf st !! i = Some x → uint_wrap (refcnt x - 1) = 0 →
  ∃ st', brelse (Buf i) st = Ok (tt, st') ∧
         list_inv st' (i :: l1 ++ l2) ∧ bc_lock st' = 0.
Proof.
  intros Hinv Hl Hl1 Hx Hz.
  pose proof (list_inv_same_links _ _ _ (brelse_dec_links (Buf i) x st Hx) Hinv)
    as Hdec.
  destruct (brelse_move_inv _ _ _ _ Hdec) as (s4 & Hmove & Hinv4 & Hl4).
  destruct (rd (brelse_dec (Buf i) x st) Head) as [h|] eqn:Hh; [|done].
  exists (set_bc_lock 0 s4). split_and!.
  - apply brelse_ok. exists x, h, s4. split_and!; [done..| |done].
    rewrite Hz, Z.eqb_refl. split; [done|].
    apply brelse_check_ok.
    destruct Hinv4 as (_ & _ & Hpath4). rewrite fmap_cons in Hpath4.
    pose proof (dpath_second _ _ _ _ _ _ Hpath4) as Hnb.
    destruct Hpath4 as (HH & Hb & Hrest).
    destruct Hdec as (_ & _ & Hpath). apply dpath_first in Hpath.
    unfold nextp in Hpath. rewrite Hh in Hpath. simpl in Hpath.
    destruct l1 as [|a l1]; [done|]. simpl in Hpath, Hnb, Hrest.
    injection Hpath as ->. split_and!; [done..|].
    by destruct Hrest as (_ & ? & _).
  - by apply list_inv_set_bc_lock.
  - done.
Qed.

(** Whatever [brelse] does on a buffer of the pool, a normal return
    leaves a well-formed list. *)
Lemma brelse_preserves st l i u st' :
  list_inv st l → (i < NBUF)%nat →
  brelse (Buf i) st = Ok (u, st') →
  ∃ l', list_inv st' l'.
Proof.
  intros Hinv Hi (x & h & s4 & Hl & Hx & Hh & Hif & ->)%brelse_ok.
  pose proof (list_inv_same_links _ _ _ (brelse_dec_links (Buf i) x st Hx) Hinv)
    as Hdec.
  destruct (uint_wrap (refcnt x - 1) =? 0).
  - destruct Hif as [Hmove _].
    apply (list_inv_elem _ _ i) in Hinv as Hin. apply Hin in Hi.
    apply list_elem_of_split in Hi as (l1 & l2 & ->).
    destruct (brelse_move_inv _ _ _ _ Hdec) as (s' & Hmove' & Hinv' & _).
    rewrite Hmove in Hmove'. injection Hmove' as <-.
    exists (i :: l1 ++ l2). by apply list_inv_set_bc_lock.
  - subst s4. exists l. by apply list_inv_set_bc_lock.
Qed.

(** A normal return that promoted the buffer means the buffer was not
    the most recently used one before the call. *)
Lemma brelse_promoted_not_mru st l i x u st' :
  list_inv st l → bc_buf st !! i = Some x → uint_wrap (refcnt x - 1) = 0 →
  brelse (Buf i) st = Ok (u, st') →
  nextp st Head ≠ Some (Buf i).
Proof.
  intros Hinv Hx Hz (x' & h & s4 & Hl & Hx' & Hh & Hif & ->)%brelse_ok Hmru.
  simpl in Hx'. rewrite Hx in Hx'. injection Hx' as <-.
  pose proof (list_inv_same_links _ _ _ (brelse_dec_links (Buf i) x st Hx) Hinv)
    as Hdec.
  rewrite Hz, Z.eqb_refl in Hif. destruct Hif as [Hmove Hcheck].
  apply brelse_check_ok in Hcheck as (_ & _ & _ & Hnb & _).
  assert (next h = Buf i) as Hh'.
  { pose proof (brelse_dec_links (Buf i) x st Hx Head) as E.
    rewrite Hh in E. unfold nextp in Hmru. simpl in *.
    unfold links in E. simpl in *. congruence. }
  rewrite Hh' in Hnb.
  assert (i ∈ l) as (l1 & l2 & ->)%list_elem_of_split.
  { eapply list_inv_elem; [done|]. apply lookup_lt_Some in Hx.
    destruct Hinv as (<- & _). done. }
  destruct (brelse_move_inv _ _ _ _ Hdec) as (s' & Hmove' & Hinv' & _).
  rewrite Hmove in Hmove'. injection Hmove' as <-.
  pose proof (list_inv_NoDup _ _ Hinv') as Hnd.
  destruct Hinv' as (_ & _ & Hpath). rewrite fmap_cons in Hpath, Hnd.
  apply dpath_second in Hpath. rewrite Hnb in Hpath.
  symmetry in Hpath. apply head_snoc_elem in Hpath.
  apply NoDup_cons in Hnd as [HH Hnd]. apply NoDup_cons in Hnd as [Hi _].
  set_solver.
Qed.

(** ** The states of the examples *)

Lemma st_init_binit : binit zero_cache = Ok (0, st_init).
Proof. reflexivity. Qed.

Lemma st_under_run : brelse (Buf 2) st_init = Ok (tt, st_under).
Proof. reflexivity. Qed.

Lemma st_written0_run : bwrite (Buf 0) st_init = Ok (tt, st_written0).
Proof. reflexivity. Qed.

Lemma st_written1_run : bwrite (Buf 1) st_init = Ok (tt, st_written1).
Proof. reflexivity. Qed.

Lemma st_written2_run : bwrite (Buf 2) st_init = Ok (tt, st_written2).
Proof. reflexivity. Qed.

Lemma st_held0_run : bget FUEL 10 20 st_written0 = Ok (Buf 0, st_held0).
Proof. reflexivity. Qed.

Lemma st_released0_run : brelse (Buf 0) st_held0 = Ok (tt, st_released0).
Proof. reflexivity. Qed.

Lemma st_full_run :
  (bwrite (Buf 0) ;; bwrite (Buf 1) ;; bwrite (Buf 2) ;;
   bget FUEL 1 1 ;; bget FUEL 1 2 ;; bget FUEL 1 3) st_init
  = Ok (Buf 2, st_full).
Proof. reflexivity. Qed.

Lemma st_init_inv : list_inv st_init [2; 1; 0]%nat.
Proof. split_and!; [done|simpl; solve_Permutation|by repeat split]. Qed.

Lemma st_under_inv : list_inv st_under [2; 1; 0]%nat.
Proof. split_and!; [done|simpl; solve_Permutation|by repeat split]. Qed.

Lemma st_written1_inv : list_inv st_written1 [2; 1; 0]%nat.
Proof. split_and!; [done|simpl; solve_Permutation|by repeat split]. Qed.

Lemma st_written2_inv : list_inv st_written2 [2; 1; 0]%nat.
Proof. split_and!; [done|simpl; solve_Permutation|by repeat split]. Qed.

Lemma st_written0_inv : list_inv st_written0 [2; 1; 0]%nat.
Proof. split_and!; [done|simpl; solve_Permutation|by repeat split]. Qed.

Lemma st_held0_inv : list_inv st_held0 [2; 1; 0]%nat.
Proof. split_and!; [done|simpl; solve_Permutation|by repeat split]. Qed.

Lemma st_full_inv : list_inv st_full [2; 1; 0]%nat.
Proof. split_and!; [done|simpl; solve_Permutation|by repeat split]. Qed.

(** * The claims *)

(** C10. [bget] writes no [prev] or [next] field, of a buffer or of the
    sentinel: on every normal return, hit or miss, each buffer has the
    links it had before, so the returned buffer keeps its place in the
    recency order. The same holds for [bread] and [bwrite]; only
    [binit] and [brelse] assign the links. *)
Theorem bget_leaves_links st st' :
  (∃ fuel d bn b, bget fuel d bn st = Ok (b, st')) ∨
  (∃ fuel d bn b, bread fuel d bn st = Ok (b, st')) ∨
  (∃ b u, bwrite b st = Ok (u, st')) →
  (∀ p, nextp st' p = nextp st p ∧ prevp st' p = prevp st p) ∧
  (∀ l, list_inv st l → list_inv st' l) ∧
  mru_to_lru st' = mru_to_lru st.
Proof.
  intros H.
  assert (same_field links st st') as Hlinks.
  { destruct H as [(fuel & d & bn & b & H)|[(fuel & d & bn & b & H)|(b & u & H)]].
    - by eapply (bget_keeps links).
    - by eapply (bread_keeps links).
    - by eapply (bwrite_keeps links). }
  pose proof (same_links_nextp _ _ Hlinks) as Hn.
  pose proof (same_links_prevp _ _ Hlinks) as Hp.
  split_and!; [done|intros l; by apply list_inv_same_links|].
  unfold mru_to_lru.
  assert (next (bc_head st') = next (bc_head st)) as ->.
  { specialize (Hn Head). unfold nextp in Hn. simpl in Hn. congruence. }
  generalize (next (bc_head st)). generalize (S NBUF).
  intros fuel. induction fuel as [|fuel IH]; intros p; simpl; [done|].
  destruct p as [|i|]; [done| |done].
  specialize (Hn (Buf i)). unfold nextp in Hn. simpl in Hn.
  destruct (bc_buf st' !! i) as [x'|], (bc_buf st !! i) as [x|];
    simpl in *; try done.
  injection Hn as ->. by rewrite IH.
Qed.

Lemma bget_leaves_links_witness :
  (∀ p, nextp st_held0 p = nextp st_written0 p ∧
        prevp st_held0 p = prevp st_written0 p) ∧
  (∀ l, list_inv st_written0 l → list_inv st_held0 l) ∧
  mru_to_lru st_held0 = mru_to_lru st_written0.
Proof.
  apply (bget_leaves_links st_written0 st_held0).
  left. exists FUEL, 10, 20, (Buf 0). reflexivity.
Defined.

(** C5, as the code has it. When [brelse] returns, the global lock
    flag [bcache.lock] is cleared; the lock flag of the released
    buffer, and of every other buffer, is the one it was before the
    call: [brelse] never assigns [b->lock]. *)
Theorem brelse_releases_global_lock_only b st u st' :
  brelse b st = Ok (u, st') →
  bc_lock st' = 0 ∧ ∀ p, lock <$> rd st' p = lock <$> rd st p.
Proof.
  intros H. split.
  - by apply brelse_ok in H as (x & h & s4 & _ & _ & _ & _ & ->).
  - by apply (brelse_keeps lock) in H.
Qed.

Lemma brelse_releases_global_lock_only_witness :
  bc_lock st_released0 = 0 ∧
  ∀ p, lock <$> rd st_released0 p
       = lock <$> rd st_held0 p.
Proof.
  apply (brelse_releases_global_lock_only (Buf 0) st_held0 tt).
  reflexivity.
Defined.

(** C5, as stated, fails: after [binit(); bwrite(&buf[0]); bget(10, 20)]
    buffer 0 is held with its lock flag set; [brelse] on it returns
    normally with the global lock cleared and the buffer's lock flag
    still 1. *)
Lemma brelse_leaves_buffer_locked :
  brelse (Buf 0) st_held0 = Ok (tt, st_released0) ∧
  lock <$> rd st_held0 (Buf 0) = Some 1 ∧
  bc_lock st_released0 = 0 ∧
  lock <$> rd st_released0 (Buf 0) = Some 1.
Proof. by vm_compute. Qed.

(** C9. Releasing a buffer whose reference count is already 0 (with the
    global lock free, as every call requires) returns normally: the
    count wraps to 2^32 - 1, which is not zero, so the buffer is not
    moved; every other field of every buffer, the links included, is
    unchanged. The count then reads 4294967295 for a buffer nobody
    holds. *)
Theorem brelse_refcnt_underflow b st x :
  bc_lock st ≠ 1 → rd st b = Some x → refcnt x = 0 →
  ∃ st', brelse b st = Ok (tt, st') ∧
         rd st' b = Some (with_refcnt 4294967295 x) ∧
         (∀ p, p ≠ b → rd st' p = rd st p) ∧
         (∀ p, nextp st' p = nextp st p ∧ prevp st' p = prevp st p) ∧
         (∀ l, list_inv st l → list_inv st' l) ∧
         bc_lock st' = 0.
Proof.
  intros Hl Hx Hz.
  assert (uint_wrap (refcnt x - 1) = 4294967295) as Hw by by rewrite Hz.
  destruct (rd (brelse_dec b x st) Head) as [h|] eqn:Hh; [|done].
  exists (set_bc_lock 0 (brelse_dec b x st)).
  pose proof (brelse_dec_links b x st Hx) as Hlinks.
  assert (same_field links st (set_bc_lock 0 (brelse_dec b x st))) as Hlinks'.
  { intros p. by rewrite rd_set_bc_lock. }
  split_and!.
  - apply brelse_ok. exists x, h, (brelse_dec b x st).
    split_and!; [done..| |done]. by rewrite Hw.
  - rewrite rd_set_bc_lock, brelse_dec_rd by done. by rewrite Hw.
  - intros p Hp. rewrite rd_set_bc_lock. unfold brelse_dec.
    by rewrite rd_wr_ne, rd_set_bc_lock.
  - intros p. split; [by apply same_links_nextp|by apply same_links_prevp].
  - intros l. by apply list_inv_same_links.
  - done.
Qed.

Lemma brelse_refcnt_underflow_witness :
  ∃ st', brelse (Buf 2) st_init = Ok (tt, st') ∧
         rd st' (Buf 2) = Some (mkBuf 0 0 0 0 0 4294967295 Head (Buf 1)) ∧
         (∀ p, p ≠ Buf 2 → rd st' p = rd st_init p) ∧
         (∀ p, nextp st' p = nextp st_init p ∧ prevp st' p = prevp st_init p) ∧
         (∀ l, list_inv st_init l → list_inv st' l) ∧
         bc_lock st' = 0.
Proof.
  apply (brelse_refcnt_underflow (Buf 2) st_init
           (mkBuf 0 0 0 0 0 0 Head (Buf 1))); [by vm_compute|reflexivity..].
Defined.

(** What the checks of [brelse] guarantee on any normal return, in any
    state: if the decremented reference count is zero,
    [bcache.head.next] is [b], the buffer that was [bcache.head.next]
    before the call is [b->next], and that buffer's [prev] is [b]. *)
Lemma brelse_checked_on_return b st x st' :
  rd st b = Some x → uint_wrap (refcnt x - 1) = 0 →
  brelse b st = Ok (tt, st') →
  nextp st' Head = Some b ∧
  ∃ mru, nextp st Head = Some mru ∧
         nextp st' b = Some mru ∧ prevp st' mru = Some b.
Proof.
  intros Hx Hz (x' & h & s4 & Hl & Hx' & Hh & Hif & ->)%brelse_ok.
  rewrite Hx in Hx'. injection Hx' as <-.
  rewrite Hz, Z.eqb_refl in Hif. destruct Hif as [_ Hcheck].
  apply brelse_check_ok in Hcheck as (_ & HH & _ & Hb & Hm).
  unfold nextp, prevp in *. setoid_rewrite rd_set_bc_lock.
  split; [done|]. exists (next h). split_and!; [|done..].
  pose proof (brelse_dec_links b x st Hx Head) as E.
  rewrite Hh in E. simpl in E. unfold links in E. simpl. congruence.
Qed.


(** ** Traversals of a well-formed list *)

Lemma list_inv_mru_to_lru st l : list_inv st l → mru_to_lru st = Some l.
Proof.
  intros Hinv. unfold mru_to_lru.
  eapply traverse_walk; [by apply list_inv_walk_next|done|].
  rewrite (list_inv_length _ _ Hinv). lia.
Qed.

Lemma list_inv_lru_to_mru st l :
  list_inv st l → lru_to_mru st = Some (reverse l).
Proof.
  intros Hinv. unfold lru_to_mru.
  eapply traverse_walk; [by apply list_inv_walk_prev|done|].
  rewrite length_reverse, (list_inv_length _ _ Hinv). lia.
Qed.

Lemma recyclable_unreferenced x : recyclable x = true → refcnt x = 0.
Proof. unfold recyclable. intros [H _]%andb_true_iff. by apply Z.eqb_eq. Qed.

Lemma recyclable_held x : 1 ≤ refcnt x → recyclable x = false.
Proof.
  intros H. unfold recyclable. apply andb_false_iff. left.
  apply Z.eqb_neq. lia.
Qed.



(** The second loop of [bget], as the code has it. When the first loop finds no
    buffer bound to the block, the second loop walks from
    [bcache.head.prev] (least recently used) towards the front and
    rebinds the first buffer that passes its test [recyclable]: the
    reference count must be 0, and the test reads the dirty flag as
    well, so buffers with count 0 can be passed over. The buffer taken
    gets the device and block of the request, [valid] and [dirty]
    cleared, reference count 1 and its lock flag set; every other
    buffer is unchanged, and the global lock is released. *)
Theorem bget_recycles_first_recyclable st l fuel d bn l1 i l2 x :
  list_inv st l → bc_lock st ≠ 1 → (NBUF < fuel)%nat →
  Forall (λ j, test_at st (is_block d bn) j = false) l →
  lru_to_mru st = Some (l1 ++ i :: l2) →
  Forall (λ j, test_at st recyclable j = false) l1 →
  bc_buf st !! i = Some x → recyclable x = true →
  refcnt x = 0 ∧
  ∃ st', bget fuel d bn st = Ok (Buf i, st') ∧
         rd st' (Buf i) = Some (mkBuf 0 0 d bn 1 1 (prev x) (next x)) ∧
         (∀ p, p ≠ Buf i → rd st' p = rd st p) ∧
         bc_lock st' = 0.
Proof.
  intros Hinv Hl Hfuel Hnone Hlru Hl1 Hx Hi.
  split; [by apply recyclable_unreferenced|].
  rewrite (list_inv_lru_to_mru _ _ Hinv) in Hlru. injection Hlru as Hrev.
  eexists. split_and!.
  - by eapply bget_miss_spec.
  - apply rd_wr_eq. simpl. eauto.
  - intros p Hp. by rewrite rd_wr_ne.
  - by rewrite bc_lock_wr.
Qed.

Lemma bget_recycles_first_recyclable_witness :
  refcnt (mkBuf 1 1 0 0 0 0 (Buf 2) (Buf 0)) = 0 ∧
  ∃ st', bget FUEL 10 20 st_written1 = Ok (Buf 1, st') ∧
         rd st' (Buf 1) = Some (mkBuf 0 0 10 20 1 1 (Buf 2) (Buf 0)) ∧
         (∀ p, p ≠ Buf 1 → rd st' p = rd st_written1 p) ∧
         bc_lock st' = 0.
Proof.
  apply (bget_recycles_first_recyclable st_written1 [2; 1; 0]%nat FUEL 10 20
           [0%nat] 1%nat [2%nat] (mkBuf 1 1 0 0 0 0 (Buf 2) (Buf 0))).
  - exact st_written1_inv.
  - by vm_compute.
  - unfold FUEL. lia.
  - by repeat constructor.
  - reflexivity.
  - by repeat constructor.
  - reflexivity.
  - reflexivity.
Defined.

(** C1. The code departs from the claim, and from the comment above
    its own second loop ("recycle some unused buffer and clean
    buffer"): the loop tests [b->dirty == 1]. After [binit()] the least
    recently used buffer is buffer 0, unreferenced and clean, and no
    buffer is bound to block (10, 20); [bget(10, 20)], the first call
    of [main], rebinds nothing and returns the null pointer, leaving
    the global lock taken. After [bwrite(&buf[1])] the same call passes
    over buffer 0, still unreferenced and clean, and rebinds the dirty
    buffer 1. *)
Lemma bget_skips_unreferenced :
  lru_to_mru st_init = Some [0; 1; 2]%nat ∧
  refcnt <$> rd st_init (Buf 0) = Some 0 ∧
  dirty <$> rd st_init (Buf 0) = Some 0 ∧
  Forall (λ j, test_at st_init (is_block 10 20) j = false) [0; 1; 2]%nat ∧
  bget FUEL 10 20 st_init = Ok (Null, set_bc_lock 1 st_init) ∧
  lru_to_mru st_written1 = Some [0; 1; 2]%nat ∧
  refcnt <$> rd st_written1 (Buf 0) = Some 0 ∧
  dirty <$> rd st_written1 (Buf 0) = Some 0 ∧
  dirty <$> rd st_written1 (Buf 1) = Some 1 ∧
  Forall (λ j, test_at st_written1 (is_block 10 20) j = false) [0; 1; 2]%nat ∧
  ∃ st', bget FUEL 10 20 st_written1 = Ok (Buf 1, st') ∧
         rd st' (Buf 0) = rd st_written1 (Buf 0).
Proof.
  split_and!; try reflexivity; try (by repeat constructor).
  eexists. split; [vm_compute; reflexivity|reflexivity].
Qed.

(** C7. On a well-formed list, with the global lock free: when no
    buffer is bound to the block and no buffer passes the recycling
    test (in particular when every buffer is held), [bget] returns the
    null pointer by its [return 0], not through [ERROR]; the only
    effect is that the global lock stays taken. A null result
    designates no buffer, while every other result of [bget]
    designates one. *)
Theorem bget_no_free_slot st l fuel d bn :
  list_inv st l → bc_lock st ≠ 1 → (NBUF < fuel)%nat →
  Forall (λ j, test_at st (is_block d bn) j = false) l →
  Forall (λ j, test_at st recyclable j = false) l →
  bget fuel d bn st = Ok (Null, set_bc_lock 1 st) ∧
  rd (set_bc_lock 1 st) Null = None ∧
  ∀ fuel' d' bn' b st',
    bget fuel' d' bn' st = Ok (b, st') → b ≠ Null → is_Some (rd st' b).
Proof.
  intros Hinv Hl Hfuel Hnone Hnone'. split_and!.
  - by eapply bget_none_spec.
  - done.
  - intros fuel' d' bn' b st' [_ H]%bget_inv Hb.
    destruct H as [[-> _]|[(x & _ & Hx & _ & ->)|(x & _ & Hx & _ & ->)]];
      [done|..]; rewrite rd_wr_eq; eauto.
Qed.

Lemma bget_no_free_slot_witness :
  Forall (λ x, 1 ≤ refcnt x) (bc_buf st_full) ∧
  bget FUEL 20 40 st_full = Ok (Null, set_bc_lock 1 st_full) ∧
  rd (set_bc_lock 1 st_full) Null = None ∧
  ∀ fuel' d' bn' b st',
    bget fuel' d' bn' st_full = Ok (b, st') → b ≠ Null → is_Some (rd st' b).
Proof.
  split; [by repeat constructor|].
  apply (bget_no_free_slot st_full [2; 1; 0]%nat FUEL 20 40).
  - exact st_full_inv.
  - by vm_compute.
  - unfold FUEL. lia.
  - by repeat constructor.
  - by repeat constructor.
Defined.





(** ** bread *)

Lemma bget_ide_calls fuel d bn st b st' :
  bget fuel d bn st = Ok (b, st') → ide_calls st' = ide_calls st.
Proof.
  intros [_ H]%bget_inv.
  destruct H as [[_ ->]|[(x & _ & _ & _ & ->)|(x & _ & _ & _ & ->)]];
    [done|by rewrite ide_calls_wr..].
Qed.

Lemma iderw_eq b st x :
  rd st b = Some x →
  iderw b st =
    Ok (tt, wr (mkCache (bc_lock st) (bc_buf st) (bc_head st)
                  (b :: ide_calls st)) b (with_valid 1 x)).
Proof.
  intros Hx. unfold iderw.
  rewrite (bind_eq _ _ _ _ _ (eq_refl : log_ide b st = Ok (tt, _))).
  apply update_eq. by destruct b.
Qed.

(** C4, as the code has it. Whenever [bget] returns a buffer, valid or
    not, [bread] calls [iderw] on it exactly once (the guard
    [if (b->valid != 1)] is commented out), and returns that buffer
    with [valid == 1]. *)
Theorem bread_always_reads fuel d bn st b s1 :
  bget fuel d bn st = Ok (b, s1) → b ≠ Null →
  ∃ x st', rd s1 b = Some x ∧
           bread fuel d bn st = Ok (b, st') ∧
           ide_calls st' = b :: ide_calls st ∧
           rd st' b = Some (with_valid 1 x).
Proof.
  intros Hget Hb.
  assert (is_Some (rd s1 b)) as [x Hx].
  { pose proof Hget as [_ H]%bget_inv.
    destruct H as [[-> _]|[(x & _ & Hx & _ & ->)|(x & _ & Hx & _ & ->)]];
      [done|..]; rewrite rd_wr_eq; eauto. }
  set (s2 := wr (mkCache (bc_lock s1) (bc_buf s1) (bc_head s1)
                   (b :: ide_calls s1)) b (with_valid 1 x)).
  assert (rd s2 b = Some (with_valid 1 x)) as Hx2.
  { apply rd_wr_eq. destruct b; simpl in *; eauto. }
  exists x, s2. split_and!; [done| | |done].
  - unfold bread. rewrite (bind_eq _ _ _ _ _ Hget).
    rewrite (bind_eq _ _ _ _ _ (iderw_eq _ _ _ Hx)). fold s2.
    by rewrite (bind_eq _ _ _ _ _ (load_eq _ _ _ Hx2)).
  - unfold s2. rewrite ide_calls_wr. simpl.
    by rewrite (bget_ide_calls _ _ _ _ _ _ Hget).
Qed.

Lemma bread_always_reads_witness :
  ∃ x st', rd st_held0 (Buf 0) = Some x ∧
           bread FUEL 10 20 st_written0 = Ok (Buf 0, st') ∧
           ide_calls st' = Buf 0 :: ide_calls st_written0 ∧
           rd st' (Buf 0) = Some (with_valid 1 x).
Proof.
  apply (bread_always_reads FUEL 10 20 st_written0 (Buf 0) st_held0).
  - reflexivity.
  - discriminate.
Defined.

(** C4, as stated, fails in the "only if" direction. After
    [binit(); bwrite(&buf[2])] buffer 2 is bound to block (0, 0) and
    valid; [bget(0, 0)] returns it with [valid == 1], and [bread(0, 0)]
    still calls [iderw] on it. *)
Lemma bread_reads_valid_buffer :
  ∃ s1 st', bget FUEL 0 0 st_written2 = Ok (Buf 2, s1) ∧
            valid <$> rd s1 (Buf 2) = Some 1 ∧
            bread FUEL 0 0 st_written2 = Ok (Buf 2, st') ∧
            ide_calls st' = Buf 2 :: ide_calls st_written2.
Proof.
  do 2 eexists. split_and!;
    [vm_compute; reflexivity|reflexivity|vm_compute; reflexivity|reflexivity].
Qed.

(** C8. [bread] does not test the result of [bget]: when [bget] returns
    the null pointer, [bread] passes it to [iderw], whose store through
    it is an access through a pointer to no buffer. So a normal return
    of [bread] implies that [bget] returned a buffer, and then the
    buffer returned is that one, with [valid == 1]. The fault is
    reached from a saturated pool: with all three buffers held,
    [bread] of a fourth block faults. *)
Theorem bread_null_unchecked :
  (∀ fuel d bn st s1,
     bget fuel d bn st = Ok (Null, s1) →
     bread fuel d bn st = Err invalid_pointer) ∧
  (∀ fuel d bn st b st',
     bread fuel d bn st = Ok (b, st') →
     b ≠ Null ∧ (∃ s1, bget fuel d bn st = Ok (b, s1)) ∧
     valid <$> rd st' b = Some 1) ∧
  (list_inv st_full [2; 1; 0]%nat ∧
   Forall (λ x, 1 ≤ refcnt x) (bc_buf st_full) ∧
   bget FUEL 20 40 st_full = Ok (Null, set_bc_lock 1 st_full) ∧
   bread FUEL 20 40 st_full = Err invalid_pointer).
Proof.
  split_and!.
  - intros fuel d bn st s1 Hget. unfold bread.
    by rewrite (bind_eq _ _ _ _ _ Hget).
  - intros fuel d bn st b st' H. unfold bread in H.
    apply bind_ok in H as (b' & s1 & Hget & H).
    apply bind_ok in H as (u1 & s2 & Hide & H).
    apply bind_ok in H as (x & s3 & [Hx ->]%load_ok & H).
    apply bind_ok in H as (u2 & s4 & [Hv ->]%error_if_ok & H).
    apply mret_ok in H as [-> ->].
    split_and!.
    + intros ->. done.
    + by exists s1.
    + rewrite Hx. simpl. apply negb_false_iff, Z.eqb_eq in Hv. by rewrite Hv.
  - exact st_full_inv.
  - by repeat constructor.
  - reflexivity.
  - reflexivity.
Qed.

Lemma bread_null_unchecked_witness :
  bread FUEL 10 20 st_init = Err invalid_pointer ∧
  (Buf 0 ≠ Null ∧ (∃ s1, bget FUEL 10 20 st_written0 = Ok (Buf 0, s1)) ∧
   valid <$> rd (state_of (bread FUEL 10 20 st_written0)) (Buf 0) = Some 1).
Proof.
  split.
  - apply (proj1 bread_null_unchecked FUEL 10 20 st_init (set_bc_lock 1 st_init)).
    reflexivity.
  - apply (proj1 (proj2 bread_null_unchecked) FUEL 10 20 st_written0).
    reflexivity.
Defined.

(** ** binit *)

(** Whatever the buffers hold when it is called, [binit] links them in
    array order behind the sentinel, passes its own checks and returns
    0: [head.next] is the last buffer of the array, [head.prev] the
    first. *)
Lemma binit_spec st :
  length (bc_buf st) = NBUF →
  ∃ st', binit st = Ok (0, st') ∧ list_inv st' [2; 1; 0]%nat ∧
         bc_lock st' = 0 ∧ Forall (λ x, lock x = 0) (bc_buf st').
Proof.
  destruct st as [l bufs h calls]. simpl.
  destruct bufs as [|x0 [|x1 [|x2 [|x3 bufs]]]]; try done. intros _.
  eexists. split; [vm_compute; reflexivity|].
  split; [|split; [done|by repeat constructor]].
  split; [done|]. split; [simpl; solve_Permutation|]. by repeat split.
Qed.

(** C6. [binit] establishes the list invariant; [bget], [bread],
    [bwrite] and [brelse] (on a buffer of the pool) preserve it on
    every normal return; and under the invariant the list holds every
    one of the [NBUF] buffers exactly once, the walk along [next] from
    [head.next] and the walk along [prev] from [head.prev] both reach
    the sentinel after visiting each buffer once (one in the reverse
    order of the other), and for any two nodes [x], [y] of the cycle,
    sentinel included, [x->next == y] exactly when [y->prev == x]. *)
Theorem list_invariant :
  (∀ st, length (bc_buf st) = NBUF →
         ∃ st', binit st = Ok (0, st') ∧ list_inv st' [2; 1; 0]%nat) ∧
  (∀ st l, list_inv st l →
     (∀ fuel d bn b st', bget fuel d bn st = Ok (b, st') → list_inv st' l) ∧
     (∀ fuel d bn b st', bread fuel d bn st = Ok (b, st') → list_inv st' l) ∧
     (∀ b u st', bwrite b st = Ok (u, st') → list_inv st' l) ∧
     (∀ i u st', (i < NBUF)%nat → brelse (Buf i) st = Ok (u, st') →
                 ∃ l', list_inv st' l')) ∧
  (∀ st l, list_inv st l →
     length (bc_buf st) = NBUF ∧
     NoDup l ∧ (∀ i, i ∈ l ↔ (i < NBUF)%nat) ∧
     mru_to_lru st = Some l ∧ lru_to_mru st = Some (reverse l) ∧
     (∀ x y, x ∈ Head :: (Buf <$> l) → y ∈ Head :: (Buf <$> l) →
             nextp st x = Some y ↔ prevp st y = Some x)).
Proof.
  split_and!.
  - intros st Hlen. destruct (binit_spec st Hlen) as (st' & ? & ? & _). eauto.
  - intros st l Hinv. split_and!.
    + intros fuel d bn b st' H.
      eapply list_inv_same_links; [|done]. by eapply (bget_keeps links).
    + intros fuel d bn b st' H.
      eapply list_inv_same_links; [|done]. by eapply (bread_keeps links).
    + intros b u st' H.
      eapply list_inv_same_links; [|done]. by eapply (bwrite_keeps links).
    + intros i u st' Hi H. by eapply brelse_preserves.
  - intros st l Hinv. split_and!.
    + by destruct Hinv.
    + destruct Hinv as (_ & Hperm & _). rewrite Hperm. apply NoDup_seq.
    + intros i. by eapply list_inv_elem.
    + by apply list_inv_mru_to_lru.
    + by apply list_inv_lru_to_mru.
    + intros x y Hx Hy. destruct Hinv as (_ & _ & Hpath).
      by eapply dpath_consistent.
Qed.

Lemma list_invariant_witness :
  list_inv st_init [2; 1; 0]%nat ∧
  list_inv st_held0 [2; 1; 0]%nat ∧
  (∃ l', list_inv st_released0 l') ∧
  mru_to_lru st_released0 = Some [0; 2; 1]%nat ∧
  lru_to_mru st_released0 = Some [1; 2; 0]%nat.
Proof.
  destruct list_invariant as (Hinit & Hstep & Hshape).
  assert (list_inv st_init [2; 1; 0]%nat) as H0.
  { destruct (Hinit zero_cache eq_refl) as (st' & Hb & Hinv).
    rewrite st_init_binit in Hb. by injection Hb as <-. }
  assert (list_inv st_written0 [2; 1; 0]%nat) as H1.
  { destruct (Hstep _ _ H0) as (_ & _ & Hw & _).
    by apply (Hw (Buf 0) tt st_written0). }
  assert (list_inv st_held0 [2; 1; 0]%nat) as H2.
  { destruct (Hstep _ _ H1) as (Hg & _).
    by apply (Hg FUEL 10 20 (Buf 0) st_held0). }
  destruct (Hstep _ _ H2) as (_ & _ & _ & Hr).
  destruct (Hr 0%nat tt st_released0) as [l' H3];
    [unfold NBUF; lia|reflexivity|].
  split_and!; [done|done|by exists l'| |].
  - destruct (Hshape _ _ H3) as (_ & _ & _ & Hm & _).
    rewrite Hm. vm_compute in Hm. by injection Hm as <-.
  - destruct (Hshape _ _ H3) as (_ & _ & _ & Hm & Hl & _).
    vm_compute in Hm. injection Hm as <-. by rewrite Hl.
Defined.

(** * Further properties of the operations *)

Lemma bind_fault {A B} (m : M A) (k : A → M B) st f :
  m st = Err f → (m ≫= k) st = Err f.
Proof. unfold mbind, M_bind. by intros ->. Qed.

(** ** bwrite *)

(** On any pointer that designates a buffer, whatever the buffer holds
    and whoever holds it, [bwrite] returns normally: the buffer ends
    with [dirty == 1] and [valid == 1], [iderw] was called once on it,
    and nothing else changed (no other buffer, no link, not the global
    lock). On a pointer to no buffer it faults. *)
Theorem bwrite_spec b st :
  (∀ x, rd st b = Some x →
     ∃ st', bwrite b st = Ok (tt, st') ∧
            rd st' b = Some (with_valid 1 (with_dirty 1 x)) ∧
            (∀ p, p ≠ b → rd st' p = rd st p) ∧
            ide_calls st' = b :: ide_calls st ∧
            bc_lock st' = bc_lock st) ∧
  (rd st b = None → bwrite b st = Err invalid_pointer).
Proof.
  split.
  - intros x Hx.
    set (s1 := wr st b (with_dirty 1 x)).
    assert (rd s1 b = Some (with_dirty 1 x)) as H1 by (apply rd_wr_eq; eauto).
    set (s2 := wr (mkCache (bc_lock s1) (bc_buf s1) (bc_head s1)
                     (b :: ide_calls s1)) b (with_valid 1 (with_dirty 1 x))).
    assert (rd s2 b = Some (with_valid 1 (with_dirty 1 x))) as H2.
    { apply rd_wr_eq. destruct b; simpl in *; eauto. }
    exists s2. split_and!.
    + unfold bwrite.
      rewrite (bind_eq _ _ _ _ _ (update_eq _ _ _ _ Hx)). fold s1.
      rewrite (bind_eq _ _ _ _ _ (load_eq _ _ _ H1)). simpl.
      rewrite (bind_eq _ _ _ _ _ (eq_refl : error_if false s1 = Ok (tt, s1))).
      rewrite (bind_eq _ _ _ _ _ (iderw_eq _ _ _ H1)). fold s2.
      by rewrite (bind_eq _ _ _ _ _ (load_eq _ _ _ H2)).
    + done.
    + intros p Hp. unfold s2. rewrite rd_wr_ne by done.
      transitivity (rd s1 p); [by destruct p|]. unfold s1. by rewrite rd_wr_ne.
    + unfold s2, s1. rewrite ide_calls_wr. simpl. by rewrite ide_calls_wr.
    + unfold s2, s1. rewrite bc_lock_wr. simpl. by rewrite bc_lock_wr.
  - intros Hx. unfold bwrite. apply bind_fault. unfold update. by rewrite Hx.
Qed.

Lemma bwrite_spec_witness :
  (∃ st', bwrite (Buf 1) st_init = Ok (tt, st') ∧
          rd st' (Buf 1) = Some (mkBuf 1 1 0 0 0 0 (Buf 2) (Buf 0)) ∧
          (∀ p, p ≠ Buf 1 → rd st' p = rd st_init p) ∧
          ide_calls st' = Buf 1 :: ide_calls st_init ∧
          bc_lock st' = bc_lock st_init) ∧
  bwrite Null st_init = Err invalid_pointer.
Proof.
  split.
  - apply (proj1 (bwrite_spec (Buf 1) st_init)
             (mkBuf 0 0 0 0 0 0 (Buf 2) (Buf 0))). reflexivity.
  - apply (proj2 (bwrite_spec Null st_init)). reflexivity.
Defined.

(** ** bget *)

(** Cache hit. On a well-formed list, with the global lock free, the
    first buffer from the most-recently-used end that is bound to the
    block is returned, whatever its reference count, validity or
    dirtiness: its count is incremented modulo 2^32 and its lock flag
    set, the global lock is released, no other buffer changes and
    [iderw] is not called. *)
Theorem bget_hit_first_bound st l fuel d bn l1 i l2 x :
  list_inv st l → bc_lock st ≠ 1 → (NBUF < fuel)%nat →
  mru_to_lru st = Some (l1 ++ i :: l2) →
  Forall (λ j, test_at st (is_block d bn) j = false) l1 →
  bc_buf st !! i = Some x → is_block d bn x = true →
  ∃ st', bget fuel d bn st = Ok (Buf i, st') ∧
         rd st' (Buf i)
           = Some (with_lock 1 (with_refcnt ((refcnt x + 1) mod 2 ^ 32) x)) ∧
         (∀ p, p ≠ Buf i → rd st' p = rd st p) ∧
         ide_calls st' = ide_calls st ∧
         bc_lock st' = 0.
Proof.
  intros Hinv Hl Hfuel Hmru Hl1 Hx Hi.
  rewrite (list_inv_mru_to_lru _ _ Hinv) in Hmru. injection Hmru as ->.
  eexists. split_and!.
  - by eapply bget_hit_spec.
  - apply rd_wr_eq. simpl. eauto.
  - intros p Hp. by rewrite rd_wr_ne.
  - by rewrite ide_calls_wr.
  - by rewrite bc_lock_wr.
Qed.

Lemma bget_hit_first_bound_witness :
  ∃ st', bget FUEL 10 20 st_held0 = Ok (Buf 0, st') ∧
         rd st' (Buf 0) = Some (mkBuf 0 0 10 20 1 2 (Buf 1) Head) ∧
         (∀ p, p ≠ Buf 0 → rd st' p = rd st_held0 p) ∧
         ide_calls st' = ide_calls st_held0 ∧
         bc_lock st' = 0.
Proof.
  apply (bget_hit_first_bound st_held0 [2; 1; 0]%nat FUEL 10 20
           [2; 1]%nat 0%nat [] (mkBuf 0 0 10 20 1 1 (Buf 1) Head)).
  - exact st_held0_inv.
  - by vm_compute.
  - unfold FUEL. lia.
  - reflexivity.
  - by repeat constructor.
  - reflexivity.
  - reflexivity.
Defined.

(** Every normal return of [bget], in any state: [iderw] was not
    called, no buffer other than the returned one changed, and the
    global lock is released exactly when a buffer is returned; the
    null result leaves the state as it was except that the global lock
    stays taken. *)
Theorem bget_frame fuel d bn st b st' :
  bget fuel d bn st = Ok (b, st') →
  ide_calls st' = ide_calls st ∧
  (∀ p, p ≠ b → rd st' p = rd st p) ∧
  (b ≠ Null → bc_lock st' = 0) ∧
  (b = Null → st' = set_bc_lock 1 st).
Proof.
  intros H. split; [by eapply bget_ide_calls|].
  apply bget_inv in H as [_ H].
  destruct H as [[-> ->]|[(x & _ & Hx & _ & ->)|(x & _ & Hx & _ & ->)]].
  - split_and!; [|done..]. intros p _. by rewrite rd_set_bc_lock.
  - split_and!.
    + intros p Hp. by rewrite rd_wr_ne, rd_set_bc_lock.
    + intros _. by rewrite bc_lock_wr.
    + intros ->. done.
  - split_and!.
    + intros p Hp. by rewrite rd_wr_ne, rd_set_bc_lock.
    + intros _. by rewrite bc_lock_wr.
    + intros ->. done.
Qed.

Lemma bget_frame_witness :
  ide_calls st_held0 = ide_calls st_written0 ∧
  (∀ p, p ≠ Buf 0 → rd st_held0 p = rd st_written0 p) ∧
  (Buf 0 ≠ Null → bc_lock st_held0 = 0) ∧
  (Buf 0 = Null → st_held0 = set_bc_lock 1 st_written0).
Proof.
  apply (bget_frame FUEL 10 20 st_written0 (Buf 0) st_held0). reflexivity.
Defined.

(** The global lock is not reentrant: called with [bcache.lock == 1],
    [bget], [bread] and [brelse] end in [ERROR] before touching
    anything. In particular, after [bget] has returned null from a
    saturated pool (which leaves the lock taken) the next [bget],
    [bread] or [brelse] ends in [ERROR] unless the caller resets the
    lock, as [main] does before each call. *)
Theorem lock_held_faults :
  (∀ st fuel d bn b,
     bc_lock st = 1 →
     bget fuel d bn st = Err VERIFIER_error ∧
     bread fuel d bn st = Err VERIFIER_error ∧
     brelse b st = Err VERIFIER_error) ∧
  (∀ st l fuel d bn,
     list_inv st l → bc_lock st ≠ 1 → (NBUF < fuel)%nat →
     Forall (λ j, test_at st (is_block d bn) j = false) l →
     Forall (λ j, test_at st recyclable j = false) l →
     ∃ st', bget fuel d bn st = Ok (Null, st') ∧
            ∀ fuel' d' bn' b,
              bget fuel' d' bn' st' = Err VERIFIER_error ∧
              bread fuel' d' bn' st' = Err VERIFIER_error ∧
              brelse b st' = Err VERIFIER_error).
Proof.
  assert (∀ st fuel d bn b,
     bc_lock st = 1 →
     bget fuel d bn st = Err VERIFIER_error ∧
     bread fuel d bn st = Err VERIFIER_error ∧
     brelse b st = Err VERIFIER_error) as Hheld.
  { intros st fuel d bn b Hl.
    assert (bget fuel d bn st = Err VERIFIER_error) as Hget.
    { unfold bget.
      rewrite (bind_eq _ _ _ _ _ (eq_refl : get_lock st = Ok (bc_lock st, st))).
      by rewrite Hl. }
    split_and!; [done| |].
    - unfold bread. by apply bind_fault.
    - unfold brelse.
      rewrite (bind_eq _ _ _ _ _ (eq_refl : get_lock st = Ok (bc_lock st, st))).
      by rewrite Hl. }
  split; [done|].
  intros st l fuel d bn Hinv Hl Hfuel Hnone Hnone'.
  exists (set_bc_lock 1 st). split; [by eapply bget_none_spec|].
  intros fuel' d' bn' b. by apply Hheld.
Qed.

Lemma lock_held_faults_witness :
  (bget FUEL 20 40 (set_bc_lock 1 st_init) = Err VERIFIER_error ∧
   bread FUEL 20 40 (set_bc_lock 1 st_init) = Err VERIFIER_error ∧
   brelse (Buf 0) (set_bc_lock 1 st_init) = Err VERIFIER_error) ∧
  ∃ st', bget FUEL 20 40 st_full = Ok (Null, st') ∧
         ∀ fuel' d' bn' b,
           bget fuel' d' bn' st' = Err VERIFIER_error ∧
           bread fuel' d' bn' st' = Err VERIFIER_error ∧
           brelse b st' = Err VERIFIER_error.
Proof.
  split.
  - apply (proj1 lock_held_faults (set_bc_lock 1 st_init) FUEL 20 40 (Buf 0)).
    reflexivity.
  - apply (proj2 lock_held_faults st_full [2; 1; 0]%nat FUEL 20 40).
    + exact st_full_inv.
    + by vm_compute.
    + unfold FUEL. lia.
    + by repeat constructor.
    + by repeat constructor.
Defined.

(** ** binit *)

(** With [NBUF] buffers of any contents, and in any list state,
    [binit] returns 0 (none of its own checks fires), arranges the list
    in array order, clears the global lock and every buffer's lock
    flag, and leaves [valid], [dirty], [dev], [blockno] and [refcnt] of
    every buffer as they were: it does not reset reference counts or
    bindings, and it calls nothing. *)
Theorem binit_resets_links_and_locks_only st :
  length (bc_buf st) = NBUF →
  ∃ st', binit st = Ok (0, st') ∧
         mru_to_lru st' = Some [2; 1; 0]%nat ∧
         lru_to_mru st' = Some [0; 1; 2]%nat ∧
         bc_lock st' = 0 ∧
         ide_calls st' = ide_calls st ∧
         ∀ i x, bc_buf st !! i = Some x →
           bc_buf st' !! i
             = Some (mkBuf (valid x) (dirty x) (dev x) (blockno x) 0 (refcnt x)
                       (if decide (i = 2%nat) then Head else Buf (i + 1))
                       (if decide (i = 0%nat) then Head else Buf (i - 1))).
Proof.
  destruct st as [l bufs h calls]. simpl.
  destruct bufs as [|x0 [|x1 [|x2 [|x3 bufs]]]]; try done. intros _.
  eexists. split; [vm_compute; reflexivity|].
  split; [done|]. split; [done|]. split; [done|]. split; [done|].
  intros i x Hx. destruct i as [|[|[|i]]]; simpl in Hx; [| | |done];
    injection Hx as <-.
  - by destruct x0.
  - by destruct x1.
  - by destruct x2.
Qed.

Lemma binit_resets_links_and_locks_only_witness :
  ∃ st', binit st_full = Ok (0, st') ∧
         mru_to_lru st' = Some [2; 1; 0]%nat ∧
         lru_to_mru st' = Some [0; 1; 2]%nat ∧
         bc_lock st' = 0 ∧
         ide_calls st' = ide_calls st_full ∧
         ∀ i x, bc_buf st_full !! i = Some x →
           bc_buf st' !! i
             = Some (mkBuf (valid x) (dirty x) (dev x) (blockno x) 0 (refcnt x)
                       (if decide (i = 2%nat) then Head else Buf (i + 1))
                       (if decide (i = 0%nat) then Head else Buf (i - 1))).
Proof.
  apply (binit_resets_links_and_locks_only st_full). reflexivity.
Defined.

(** ** brelse *)

Lemma brelse_check_fault b mru s n :
  nextp s Head = Some b → prevp s b = Some Head →
  nextp s b = Some n → n ≠ mru →
  brelse_check b mru s = Err VERIFIER_error.
Proof.
  intros H1 H2 H3 Hn. unfold brelse_check, nextp, prevp in *.
  destruct (rd s Head) as [h|] eqn:Hh; [|done].
  destruct (rd s b) as [x|] eqn:Hx; [|done].
  simpl in H1, H2, H3.
  injection H1 as H1. injection H2 as H2. injection H3 as H3.
  rewrite (bind_eq _ _ _ _ _ (load_eq _ _ _ Hh)).
  apply ptr_neqb_false in H1 as ->.
  rewrite (bind_eq _ _ _ _ _ (eq_refl : error_if false s = Ok (tt, s))).
  rewrite (bind_eq _ _ _ _ _ (load_eq _ _ _ Hx)).
  apply ptr_neqb_false in H2 as ->.
  rewrite (bind_eq _ _ _ _ _ (eq_refl : error_if false s = Ok (tt, s))).
  rewrite (bind_eq _ _ _ _ _ (load_eq _ _ _ Hx)).
  assert (ptr_neqb (next x) mru = true) as ->.
  { unfold ptr_neqb. apply bool_decide_eq_true. congruence. }
  done.
Qed.

(** Releasing the last reference to the buffer that is already the
    most recently used one never returns: the list is left as it was
    by the six assignments, and the check [b->next != mru] of [brelse]
    then sends it to [ERROR]. *)
Theorem brelse_front_faults st i l2 x :
  list_inv st (i :: l2) → bc_lock st ≠ 1 →
  bc_buf st !! i = Some x → uint_wrap (refcnt x - 1) = 0 →
  brelse (Buf i) st = Err VERIFIER_error.
Proof.
  intros Hinv Hl Hx' Hz.
  assert (rd st (Buf i) = Some x) as Hx by done.
  pose proof (list_inv_same_links _ _ _ (brelse_dec_links (Buf i) x st Hx) Hinv)
    as Hdec.
  destruct (brelse_move_inv _ [] _ _ Hdec) as (s4 & Hmove & Hinv4 & Hl4).
  simpl in Hinv4.
  pose proof (brelse_move_keeps_payload _ _ _ _ Hmove) as Hpay.
  destruct (same_payload_refcnt _ _ _ _ Hpay (brelse_dec_rd _ _ _ Hx))
    as (y & Hy & Hr & _).
  destruct (rd (brelse_dec (Buf i) x st) Head) as [h|] eqn:Hh; [|done].
  assert (next h = Buf i) as Hmru.
  { destruct Hdec as (_ & _ & Hpath). apply dpath_first in Hpath.
    unfold nextp in Hpath. rewrite Hh in Hpath. simpl in Hpath. congruence. }
  pose proof (list_inv_NoDup _ _ Hinv4) as Hnd. rewrite fmap_cons in Hnd.
  destruct Hinv4 as (_ & _ & Hpath4). rewrite fmap_cons in Hpath4.
  pose proof (dpath_second _ _ _ _ _ _ Hpath4) as Hnb.
  destruct Hpath4 as (HH & Hb & _).
  destruct (head_snoc_is_Some (Buf <$> l2) Head) as [n Hn].
  rewrite Hn in Hnb.
  assert (n ≠ Buf i) as Hne.
  { intros ->. apply head_snoc_elem in Hn.
    apply NoDup_cons in Hnd as [HH' Hnd]. apply NoDup_cons in Hnd as [Hi _].
    set_solver. }
  unfold brelse. cbv zeta.
  rewrite (bind_eq _ _ _ _ _ (eq_refl : get_lock st = Ok (bc_lock st, st))).
  apply Z.eqb_neq in Hl. rewrite Hl.
  rewrite (bind_eq _ _ _ _ _ (eq_refl : error_if false st = Ok (tt, st))).
  rewrite (bind_eq _ _ _ _ _
    (eq_refl : put_lock 1 st = Ok (tt, set_bc_lock 1 st))).
  erewrite bind_eq by (apply update_eq; rewrite rd_set_bc_lock; exact Hx).
  fold (brelse_dec (Buf i) x st).
  rewrite (bind_eq _ _ _ _ _ (load_eq _ _ _ Hh)).
  rewrite (bind_eq _ _ _ _ _ (load_eq _ _ _ (brelse_dec_rd _ _ _ Hx))).
  simpl refcnt. rewrite Hz, Z.eqb_refl.
  rewrite (bind_eq _ _ _ _ _ Hmove).
  rewrite (bind_eq _ _ _ _ _ (load_eq _ _ _ Hy)).
  rewrite Hr. simpl refcnt. rewrite Hz, Z.eqb_refl.
  apply bind_fault. rewrite Hmru. by eapply brelse_check_fault.
Qed.

Lemma brelse_front_faults_witness :
  brelse (Buf 2) st_full = Err VERIFIER_error.
Proof.
  apply (brelse_front_faults st_full 2%nat [1; 0]%nat
           (mkBuf 0 0 1 3 1 1 Head (Buf 1))).
  - exact st_full_inv.
  - by vm_compute.
  - reflexivity.
  - reflexivity.
Defined.

#[global] Instance same_calls_preorder : PreOrder same_calls.
Proof.
  split; [by intros st|].
  intros st1 st2 st3 H12 H23. unfold same_calls in *. congruence.
Qed.

Lemma keeps_update_calls p g : keeps same_calls (update p g).
Proof.
  intros st u st' (x & Hx & ->)%update_ok. apply ide_calls_wr.
Qed.

Lemma keeps_put_lock_calls v : keeps same_calls (put_lock v).
Proof. by intros st u st' ->%put_lock_ok. Qed.

Ltac keeps_calls_step :=
  lazymatch goal with
  | |- keeps same_calls (update ?p ?g) => apply (keeps_update_calls p g)
  | |- keeps same_calls (put_lock ?v) => apply (keeps_put_lock_calls v)
  | _ => keeps_step
  end.

Lemma brelse_keeps_calls b : keeps same_calls (brelse b).
Proof.
  unfold brelse, brelse_move, brelse_check. cbv zeta.
  repeat keeps_calls_step.
Qed.

Lemma brelse_payload b st x u st' :
  rd st b = Some x → brelse b st = Ok (u, st') →
  ∀ p, payload <$> rd st' p = payload <$> rd (brelse_dec b x st) p.
Proof.
  intros Hx (x' & h & s4 & Hl & Hx' & Hh & Hif & ->)%brelse_ok p.
  rewrite Hx in Hx'. injection Hx' as <-. rewrite rd_set_bc_lock.
  destruct (uint_wrap (refcnt x - 1) =? 0).
  - destruct Hif as [Hmove _].
    by apply (brelse_move_keeps_payload _ _ _ _ Hmove).
  - by subst s4.
Qed.

(** Promotion. On a well-formed list, with the global lock free,
    releasing the last reference to a buffer that is not at the front
    returns normally and moves exactly that buffer to the front: the
    other buffers keep their relative order, the walk from the
    least-recently-used end now meets it last, its count is 0, no other
    field than the count and the links changes, [iderw] is not called
    and the global lock is released. *)
Theorem brelse_moves_to_front st l1 i l2 x :
  list_inv st (l1 ++ i :: l2) → bc_lock st ≠ 1 → l1 ≠ [] →
  bc_buf st !! i = Some x → uint_wrap (refcnt x - 1) = 0 →
  ∃ st', brelse (Buf i) st = Ok (tt, st') ∧
         list_inv st' (i :: l1 ++ l2) ∧
         mru_to_lru st' = Some (i :: l1 ++ l2) ∧
         lru_to_mru st' = Some (reverse (l1 ++ l2) ++ [i]) ∧
         payload <$> rd st' (Buf i) = Some (payload (with_refcnt 0 x)) ∧
         (∀ p, p ≠ Buf i → payload <$> rd st' p = payload <$> rd st p) ∧
         ide_calls st' = ide_calls st ∧
         bc_lock st' = 0.
Proof.
  intros Hinv Hl Hl1 Hx Hz.
  destruct (brelse_promote_spec _ _ _ _ _ Hinv Hl Hl1 Hx Hz)
    as (st' & Hrun & Hinv' & Hl').
  assert (rd st (Buf i) = Some x) as Hx' by done.
  pose proof (brelse_payload _ _ _ _ _ Hx' Hrun) as Hpay.
  exists st'. split_and!; [done|done| | | | | |done].
  - by apply list_inv_mru_to_lru.
  - rewrite (list_inv_lru_to_mru _ _ Hinv'). by rewrite reverse_cons.
  - rewrite Hpay, (brelse_dec_rd _ _ _ Hx'). by rewrite Hz.
  - intros p Hp. rewrite Hpay. unfold brelse_dec.
    by rewrite rd_wr_ne, rd_set_bc_lock.
  - by apply (brelse_keeps_calls _ _ _ _ Hrun).
Qed.

Lemma brelse_moves_to_front_witness :
  ∃ st', brelse (Buf 0) st_held0 = Ok (tt, st') ∧
         list_inv st' [0; 2; 1]%nat ∧
         mru_to_lru st' = Some [0; 2; 1]%nat ∧
         lru_to_mru st' = Some [1; 2; 0]%nat ∧
         payload <$> rd st' (Buf 0) = Some (0, 0, 10, 20, 1, 0) ∧
         (∀ p, p ≠ Buf 0 → payload <$> rd st' p = payload <$> rd st_held0 p) ∧
         ide_calls st' = ide_calls st_held0 ∧
         bc_lock st' = 0.
Proof.
  apply (brelse_moves_to_front st_held0 [2; 1]%nat 0%nat []
           (mkBuf 0 0 10 20 1 1 (Buf 1) Head)).
  - exact st_held0_inv.
  - by vm_compute.
  - discriminate.
  - reflexivity.
  - reflexivity.
Defined.

(** Release with the count not reaching zero. With the global lock
    free, if the decremented count (modulo 2^32) is not zero, [brelse]
    returns normally, stores the decremented count and releases the
    global lock; nothing else changes: no link, no other buffer, and
    the buffer's own lock flag stays as it was. *)
Theorem brelse_decrements_only b st x :
  bc_lock st ≠ 1 → rd st b = Some x → uint_wrap (refcnt x - 1) ≠ 0 →
  ∃ st', brelse b st = Ok (tt, st') ∧
         rd st' b = Some (with_refcnt ((refcnt x - 1) mod 2 ^ 32) x) ∧
         (∀ p, p ≠ b → rd st' p = rd st p) ∧
         ide_calls st' = ide_calls st ∧
         bc_lock st' = 0.
Proof.
  intros Hl Hx Hnz.
  destruct (rd (brelse_dec b x st) Head) as [h|] eqn:Hh; [|done].
  assert (brelse b st = Ok (tt, set_bc_lock 0 (brelse_dec b x st))) as Hrun.
  { apply brelse_ok. exists x, h, (brelse_dec b x st).
    split_and!; [done..| |done]. apply Z.eqb_neq in Hnz. by rewrite Hnz. }
  exists (set_bc_lock 0 (brelse_dec b x st)). split_and!; [done| | | |done].
  - by rewrite rd_set_bc_lock, brelse_dec_rd.
  - intros p Hp. rewrite rd_set_bc_lock. unfold brelse_dec.
    by rewrite rd_wr_ne, rd_set_bc_lock.
  - by apply (brelse_keeps_calls _ _ _ _ Hrun).
Qed.

Lemma st_held0_twice_run :
  bget FUEL 10 20 st_held0 = Ok (Buf 0, st_held0_twice).
Proof. reflexivity. Qed.

Lemma brelse_decrements_only_witness :
  ∃ st', brelse (Buf 0) st_held0_twice = Ok (tt, st') ∧
         rd st' (Buf 0) = Some (mkBuf 0 0 10 20 1 1 (Buf 1) Head) ∧
         (∀ p, p ≠ Buf 0 → rd st' p = rd st_held0_twice p) ∧
         ide_calls st' = ide_calls st_held0_twice ∧
         bc_lock st' = 0.
Proof.
  apply (brelse_decrements_only (Buf 0) st_held0_twice
           (mkBuf 0 0 10 20 1 2 (Buf 1) Head)).
  - by vm_compute.
  - reflexivity.
  - by vm_compute.
Defined.

(** ** Operations composed *)

(** Acquire and release round trip. On a well-formed list with the
    global lock free, a hit on a buffer that is already held (count at
    least 1 and below 2^32 - 1) followed by [brelse] of the returned
    buffer gives back the state before the two calls, except that the
    buffer's lock flag is now 1: the count is restored, the list order
    is untouched and no buffer is moved. *)
Theorem bget_hit_then_brelse st l fuel d bn l1 i l2 x :
  list_inv st l → bc_lock st = 0 → (NBUF < fuel)%nat →
  mru_to_lru st = Some (l1 ++ i :: l2) →
  Forall (λ j, test_at st (is_block d bn) j = false) l1 →
  bc_buf st !! i = Some x → is_block d bn x = true →
  1 ≤ refcnt x < UINT_MOD - 1 →
  ∃ s1, bget fuel d bn st = Ok (Buf i, s1) ∧
        brelse (Buf i) s1 = Ok (tt, wr st (Buf i) (with_lock 1 x)).
Proof.
  intros Hinv Hl Hfuel Hmru Hl1 Hx Hi Hr.
  rewrite (list_inv_mru_to_lru _ _ Hinv) in Hmru. injection Hmru as ->.
  set (s1 := wr (set_bc_lock 0 st) (Buf i) (hit_buf x)).
  assert (rd s1 (Buf i) = Some (hit_buf x)) as H1.
  { apply rd_wr_eq. simpl. eauto. }
  assert (uint_wrap (refcnt (hit_buf x) - 1) = refcnt x) as Hw.
  { simpl. unfold uint_wrap, UINT_MOD in *.
    rewrite (Z.mod_small (refcnt x + 1)) by lia.
    rewrite Z.mod_small by lia. lia. }
  exists s1. split.
  - eapply bget_hit_spec; [done|lia|done|done|done|done|done].
  - destruct (rd (brelse_dec (Buf i) (hit_buf x) s1) Head) as [h|] eqn:Hh;
      [|done].
    apply brelse_ok. exists (hit_buf x), h, (brelse_dec (Buf i) (hit_buf x) s1).
    split_and!; [by unfold s1; rewrite bc_lock_wr|done|done| |].
    + rewrite Hw. assert ((refcnt x =? 0) = false) as -> by (apply Z.eqb_neq; lia).
      done.
    + unfold brelse_dec. rewrite Hw. unfold s1.
      destruct st as [lk bufs hd calls]. simpl in *. subst lk.
      rewrite list_insert_insert_eq. by destruct x.
Qed.

Lemma bget_hit_then_brelse_witness :
  ∃ s1, bget FUEL 10 20 st_held0 = Ok (Buf 0, s1) ∧
        brelse (Buf 0) s1
        = Ok (tt, wr st_held0 (Buf 0)
                    (with_lock 1 (mkBuf 0 0 10 20 1 1 (Buf 1) Head))).
Proof.
  apply (bget_hit_then_brelse st_held0 [2; 1; 0]%nat FUEL 10 20
           [2; 1]%nat 0%nat [] (mkBuf 0 0 10 20 1 1 (Buf 1) Head)).
  - exact st_held0_inv.
  - reflexivity.
  - unfold FUEL. lia.
  - reflexivity.
  - by repeat constructor.
  - reflexivity.
  - reflexivity.
  - by vm_compute.
Defined.

(** Only [bwrite] sets a dirty flag. After a normal return of [bget],
    [bread] or [brelse], a buffer whose dirty flag is 1 had it already
    before the call; so a buffer can come to pass the recycling test of
    [bget] only after a [bwrite] on it. *)
Theorem dirty_only_by_bwrite st st' :
  (∃ fuel d bn b, bget fuel d bn st = Ok (b, st')) ∨
  (∃ fuel d bn b, bread fuel d bn st = Ok (b, st')) ∨
  (∃ b u, brelse b st = Ok (u, st')) →
  ∀ p x', rd st' p = Some x' → dirty x' = 1 →
          ∃ x, rd st p = Some x ∧ dirty x = 1.
Proof.
  assert (∀ fuel d bn b s1, bget fuel d bn st = Ok (b, s1) →
    ∀ p x', rd s1 p = Some x' → dirty x' = 1 →
            ∃ x, rd st p = Some x ∧ dirty x = 1) as Hget.
  { intros fuel d bn b s1 [_ H]%bget_inv p x' Hx' Hd.
    destruct H as [[_ ->]|[(x & _ & Hx & _ & ->)|(x & _ & Hx & _ & ->)]].
    - rewrite rd_set_bc_lock in Hx'. eauto.
    - erewrite rd_wr in Hx' by (rewrite rd_set_bc_lock; exact Hx).
      case_decide as Hp.
      + subst p. injection Hx' as <-. eauto.
      + rewrite rd_set_bc_lock in Hx'. eauto.
    - erewrite rd_wr in Hx' by (rewrite rd_set_bc_lock; exact Hx).
      case_decide as Hp.
      + subst p. injection Hx' as <-. done.
      + rewrite rd_set_bc_lock in Hx'. eauto. }
  assert (∀ s s', same_field dirty s s' →
    ∀ p x', rd s' p = Some x' → dirty x' = 1 →
            ∃ x, rd s p = Some x ∧ dirty x = 1) as Hsame.
  { intros s s' H p x' Hx' Hd. specialize (H p). rewrite Hx' in H.
    destruct (rd s p) as [x|]; [|done]. simpl in H. injection H as H.
    exists x. split; [done|congruence]. }
  intros [(fuel & d & bn & b & H)|[(fuel & d & bn & b & H)|(b & u & H)]].
  - by eapply Hget.
  - unfold bread in H. apply bind_ok in H as (b' & s1 & Hg & H).
    assert (same_field dirty s1 st') as Hs.
    { revert H.
      lazymatch goal with
      | |- ?m s1 = Ok _ → _ =>
          assert (keeps (same_field dirty) m) as Hk;
            [unfold iderw; keeps_auto|apply Hk]
      end. }
    intros p x' Hx' Hd.
    destruct (Hsame _ _ Hs p x' Hx' Hd) as (x1 & Hx1 & Hd1).
    by eapply Hget.
  - apply (Hsame st st'). by apply (brelse_keeps dirty) in H.
Qed.

Lemma dirty_only_by_bwrite_witness :
  ∃ x, rd st_all_written (Buf 1) = Some x ∧ dirty x = 1.
Proof.
  apply (dirty_only_by_bwrite st_all_written st_all_written_held0
           (or_introl (ex_intro _ FUEL (ex_intro _ 1 (ex_intro _ 1
              (ex_intro _ (Buf 0) eq_refl)))))
           (Buf 1) (mkBuf 1 1 0 0 0 0 (Buf 2) (Buf 0)));
    reflexivity.
Defined.

(** ** No two buffers bound to the same block *)

Lemma same_field_fmap {A} (f : buf → A) st st' :
  same_field f st st' → f <$> bc_buf st' = f <$> bc_buf st.
Proof.
  intros H. apply list_eq. intros i. rewrite !list_lookup_fmap.
  exact (H (Buf i)).
Qed.

Lemma elem_of_insert_inv {A} (L : list A) i x y :
  x ∈ <[i := y]> L → x = y ∨ x ∈ L.
Proof.
  revert i. induction L as [|a L IH]; intros i; simpl; [set_solver|].
  destruct i as [|i]; simpl.
  - set_solver.
  - intros [->|H]%elem_of_cons; [set_solver|].
    destruct (IH _ H); set_solver.
Qed.

Lemma NoDup_insert_fresh {A} (L : list A) i y :
  NoDup L → y ∉ L → NoDup (<[i := y]> L).
Proof.
  revert i. induction L as [|a L IH]; intros i Hnd Hy; simpl; [done|].
  apply NoDup_cons in Hnd as [Ha Hnd].
  destruct i as [|i]; simpl.
  - apply NoDup_cons. split; [set_solver|done].
  - apply NoDup_cons. split.
    + intros [->|H]%elem_of_insert_inv; set_solver.
    + apply IH; [done|set_solver].
Qed.

(** A scan that ran to the sentinel met no buffer passing the test. *)
Lemma scan_none_all link test found st l :
  (∀ b s s', found b s ≠ Ok (None, s')) →
  ∀ fuel p c st',
    walk (λ p, link <$> rd st p) p (Buf <$> l) Head →
    link <$> rd st p = Some c →
    scan link test found fuel c st = Ok (None, st') →
    Forall (λ i, test_at st test i = false) l.
Proof.
  intros Hfound. induction l as [|i l IH]; intros fuel p c st' Hwalk Hc Hscan.
  - constructor.
  - rewrite fmap_cons in Hwalk. destruct Hwalk as [Hp Hwalk].
    rewrite Hp in Hc. injection Hc as <-.
    destruct fuel as [|fuel]; [done|]. simpl in Hscan.
    apply bind_ok in Hscan as (x & s1 & [Hx ->]%load_ok & Hscan).
    simpl in Hx.
    destruct (test x) eqn:E; [by apply Hfound in Hscan|].
    constructor.
    + unfold test_at. by rewrite Hx.
    + eapply IH; [exact Hwalk|by simpl; rewrite Hx|exact Hscan].
Qed.

(** On a well-formed list, [bget] rebinds a buffer or returns null
    only when no buffer of the pool is bound to the block. *)
Lemma bget_miss_no_block fuel d bn st l b st' :
  list_inv st l → bget fuel d bn st = Ok (b, st') →
  (∃ x, rd st b = Some x ∧ is_block d bn x = true ∧
        st' = wr (set_bc_lock 0 st) b (hit_buf x)) ∨
  Forall (λ j, test_at st (is_block d bn) j = false) l.
Proof.
  intros Hinv H. pose proof H as [Hl _]%bget_inv.
  rewrite bget_start in H by done.
  apply bind_ok in H as (r & s1 & Hscan & H).
  unfold bget_cached in Hscan. pose proof Hscan as Hscan'.
  apply scan_ok in Hscan' as [[-> ->]|(c & y & _ & Hy & Ht & Hf)].
  - right.
    eapply (scan_none_all next (is_block d bn) bget_hit (set_bc_lock 1 st));
      [|by apply list_inv_walk_next, list_inv_set_bc_lock|done|exact Hscan].
    by intros ??? (? & _ & ? & _)%bget_hit_ok.
  - left. apply bget_hit_ok in Hf as (z & Hz & -> & ->).
    apply mret_ok in H as [-> ->].
    rewrite Hy in Hz. injection Hz as <-. rewrite rd_set_bc_lock in Hy.
    by exists y.
Qed.

Lemma bget_distinct fuel d bn st l b st' :
  list_inv st l → distinct_blocks st →
  bget fuel d bn st = Ok (b, st') → distinct_blocks st'.
Proof.
  intros Hinv Hnd H. unfold distinct_blocks in *.
  destruct (bget_miss_no_block _ _ _ _ _ _ _ Hinv H)
    as [(x & Hx & Ht & ->)|Hnone].
  - destruct b as [|i|]; simpl in *; [done| |done].
    rewrite list_fmap_insert.
    rewrite list_insert_id; [done|]. by rewrite list_lookup_fmap, Hx.
  - apply bget_inv in H as [_ H].
    destruct H as [[_ ->]|[(x & _ & Hx & _ & ->)|(x & HbH & Hx & _ & ->)]].
    + done.
    + destruct b as [|i|]; simpl in *; [done| |done].
      rewrite list_fmap_insert.
      rewrite list_insert_id; [done|]. by rewrite list_lookup_fmap, Hx.
    + destruct b as [|i|]; simpl in *; [done| |done].
      rewrite list_fmap_insert. apply NoDup_insert_fresh; [done|].
      intros (y & Hy & (j & Hj)%list_elem_of_lookup_1)%list_elem_of_fmap.
      assert (j ∈ l) as Hjl.
      { eapply list_inv_elem; [done|]. apply lookup_lt_Some in Hj.
        by destruct Hinv as (<- & _). }
      rewrite Forall_forall in Hnone. specialize (Hnone _ Hjl).
      unfold test_at in Hnone. rewrite Hj in Hnone. simpl in Hnone.
      unfold bound_to, rebound_buf in Hy. simpl in Hy. injection Hy as Hd Hb.
      unfold is_block in Hnone. rewrite <-Hd, <-Hb, !Z.eqb_refl in Hnone. done.
Qed.

(** If no two buffers are bound to the same block, that is still so
    after a normal return of [bget] on a well-formed list (a buffer is
    rebound only when the first loop found the block nowhere in the
    pool), and after [bread], [bwrite] and [brelse], which assign no
    [dev] or [blockno] themselves. *)
Theorem blocks_stay_distinct st l st' :
  list_inv st l → distinct_blocks st →
  (∃ fuel d bn b, bget fuel d bn st = Ok (b, st')) ∨
  (∃ fuel d bn b, bread fuel d bn st = Ok (b, st')) ∨
  (∃ b u, bwrite b st = Ok (u, st')) ∨
  (∃ b u, brelse b st = Ok (u, st')) →
  distinct_blocks st'.
Proof.
  intros Hinv Hnd
    [(fuel & d & bn & b & H)|[(fuel & d & bn & b & H)|[(b & u & H)|(b & u & H)]]].
  - by eapply bget_distinct.
  - unfold bread in H. apply bind_ok in H as (b' & s1 & Hg & H).
    pose proof (bget_distinct _ _ _ _ _ _ _ Hinv Hnd Hg) as Hnd1.
    assert (same_field bound_to s1 st') as Hs.
    { revert H.
      lazymatch goal with
      | |- ?m s1 = Ok _ → _ =>
          assert (keeps (same_field bound_to) m) as Hk;
            [unfold iderw; keeps_auto|apply Hk]
      end. }
    unfold distinct_blocks. by rewrite (same_field_fmap _ _ _ Hs).
  - apply (bwrite_keeps bound_to) in H; [|done..].
    unfold distinct_blocks. by rewrite (same_field_fmap _ _ _ H).
  - apply (brelse_keeps bound_to) in H; [|done..].
    unfold distinct_blocks. by rewrite (same_field_fmap _ _ _ H).
Qed.

Lemma st_recyclable0_inv : list_inv st_recyclable0 [0; 2; 1]%nat.
Proof. split_and!; [done|simpl; solve_Permutation|by repeat split]. Qed.

Lemma blocks_stay_distinct_witness :
  distinct_blocks (state_of (bget FUEL 7 7 st_recyclable0)).
Proof.
  apply (blocks_stay_distinct st_recyclable0 [0; 2; 1]%nat).
  - exact st_recyclable0_inv.
  - unfold distinct_blocks. simpl.
    repeat (apply NoDup_cons; split; [set_solver|]). apply NoDup_nil_2.
  - left. exists FUEL, 7, 7, (Buf 0). reflexivity.
Defined.

(** ** main *)

(** [binit] changes the outcome of no test that reads only the dirty
    flag, the binding and the reference count. *)
Lemma binit_tests st :
  length (bc_buf st) = NBUF →
  ∃ st', binit st = Ok (0, st') ∧ list_inv st' [2; 1; 0]%nat ∧
    ∀ t : buf → bool,
      (∀ x y, dirty x = dirty y → dev x = dev y → blockno x = blockno y →
              refcnt x = refcnt y → t x = t y) →
      ∀ i, test_at st' t i = test_at st t i.
Proof.
  destruct st as [l bufs h calls]. simpl.
  destruct bufs as [|x0 [|x1 [|x2 [|x3 bufs]]]]; try done. intros _.
  eexists. split; [vm_compute; reflexivity|].
  split.
  - split; [done|]. split; [simpl; solve_Permutation|]. by repeat split.
  - intros t Ht i. unfold test_at.
    destruct i as [|[|[|i]]]; simpl; [| | |done]; apply Ht; done.
Qed.

Lemma bread_null_fault fuel d bn st s1 :
  bget fuel d bn st = Ok (Null, s1) → bread fuel d bn st = Err invalid_pointer.
Proof. intros H. unfold bread. by rewrite (bind_eq _ _ _ _ _ H). Qed.

(** [main] as written does not get past its [bread(20, 40)]. Started
    with [NBUF] buffers none of which is dirty or bound to block
    (10, 20) or (20, 40) - the zero-initialised globals of the C
    program are such a state - [binit] succeeds, [bget(10, 20)] finds
    nothing to recycle and returns null, and [bread(20, 40)] then
    passes the null result of its own [bget] to [iderw]: the run ends
    in an access through the null pointer, before [bwrite] and
    [brelse] are reached. *)
Theorem main_stops_in_bread st fuel :
  length (bc_buf st) = NBUF → (NBUF < fuel)%nat →
  Forall (λ x, dirty x ≠ 1 ∧ bound_to x ≠ (10, 20) ∧ bound_to x ≠ (20, 40))
    (bc_buf st) →
  main fuel st = Err invalid_pointer.
Proof.
  intros Hlen Hfuel Hall.
  destruct (binit_tests st Hlen) as (st1 & Hinit & Hinv & Htests).
  assert (∀ t : buf → bool,
    (∀ x y, dirty x = dirty y → dev x = dev y → blockno x = blockno y →
            refcnt x = refcnt y → t x = t y) →
    (∀ x, x ∈ bc_buf st → t x = false) →
    ∀ v, Forall (λ j, test_at (set_bc_lock v st1) t j = false) [2; 1; 0]%nat)
    as Hnone.
  { intros t Hext Ht v. apply Forall_forall. intros j _.
    change (test_at st1 t j = false). rewrite (Htests t Hext).
    unfold test_at. destruct (bc_buf st !! j) as [x|] eqn:Hx; [|done].
    simpl. eapply Ht, list_elem_of_lookup_2, Hx. }
  rewrite Forall_forall in Hall.
  assert (∀ d bn, (∀ x, x ∈ bc_buf st → bound_to x ≠ (d, bn)) →
    ∀ v, Forall (λ j, test_at (set_bc_lock v st1) (is_block d bn) j = false)
           [2; 1; 0]%nat) as Hblock.
  { intros d bn Hb. apply Hnone.
    - intros x y _ Hd Hbn _. unfold is_block. by rewrite Hd, Hbn.
    - intros x Hx. specialize (Hb x Hx). unfold is_block, bound_to in *.
      apply andb_false_iff.
      destruct (decide (dev x = d)) as [<-|Hd]; [right|left];
        apply Z.eqb_neq; [|done].
      intros E. apply Hb. by rewrite E. }
  assert (∀ v, Forall (λ j, test_at (set_bc_lock v st1) recyclable j = false)
                 [2; 1; 0]%nat) as Hrec.
  { apply Hnone.
    - intros x y Hd _ _ Hr. unfold recyclable. by rewrite Hd, Hr.
    - intros x Hx. destruct (Hall x Hx) as (Hd & _). unfold recyclable.
      apply andb_false_iff. right. by apply Z.eqb_neq. }
  assert (∀ d bn, (∀ x, x ∈ bc_buf st → bound_to x ≠ (d, bn)) →
    bget fuel d bn (set_bc_lock 0 st1) = Ok (Null, set_bc_lock 1 st1)) as Hget.
  { intros d bn Hb.
    apply (bget_none_spec (set_bc_lock 0 st1) [2; 1; 0]%nat);
      [by apply list_inv_set_bc_lock|done|done|by apply Hblock|by apply Hrec]. }
  unfold main.
  rewrite (bind_eq _ _ _ _ _ Hinit). simpl negb.
  rewrite (bind_eq _ _ _ _ _ (eq_refl : error_if false st1 = Ok (tt, st1))).
  rewrite (bind_eq _ _ _ _ _
    (eq_refl : put_lock 0 st1 = Ok (tt, set_bc_lock 0 st1))).
  rewrite (bind_eq _ _ _ _ _ (Hget 10 20 (λ x Hx, proj1 (proj2 (Hall x Hx))))).
  rewrite bool_decide_eq_false_2 by (by intros []).
  rewrite (bind_eq _ _ _ _ _ (mret_eq tt _)).
  rewrite (bind_eq _ _ _ _ _
    (eq_refl : put_lock 0 (set_bc_lock 1 st1) = Ok (tt, set_bc_lock 0 st1))).
  apply bind_fault. eapply bread_null_fault.
  exact (Hget 20 40 (λ x Hx, proj2 (proj2 (Hall x Hx)))).
Qed.

Lemma main_stops_in_bread_witness : main FUEL zero_cache = Err invalid_pointer.
Proof.
  apply (main_stops_in_bread zero_cache FUEL).
  - reflexivity.
  - unfold FUEL. lia.
  - by repeat constructor.
Defined.

(** ** The eviction order *)

Lemma first_passing_split st t l j :
  j ∈ l → test_at st t j = true →
  ∃ l1 k l2, l = l1 ++ k :: l2 ∧
             Forall (λ j, test_at st t j = false) l1 ∧
             test_at st t k = true.
Proof.
  induction l as [|a l IH]; [by intros ?%elem_of_nil|].
  intros Hj Ht. destruct (test_at st t a) eqn:Ha.
  - by exists [], a, l.
  - apply elem_of_cons in Hj as [->|Hj]; [congruence|].
    destruct (IH Hj Ht) as (l1 & k & l2 & -> & Hl1 & Hk).
    exists (a :: l1), k, l2. split_and!; [done| |done]. by constructor.
Qed.

(** The buffer at the front of the list (the one released most
    recently) is the last candidate for recycling: on a miss, if any
    other buffer passes the recycling test, [bget] rebinds one of
    those and leaves the front buffer as it is. *)
Theorem bget_recycles_front_last st i l fuel d bn j :
  list_inv st (i :: l) → bc_lock st ≠ 1 → (NBUF < fuel)%nat →
  Forall (λ k, test_at st (is_block d bn) k = false) (i :: l) →
  j ∈ l → test_at st recyclable j = true →
  ∃ k st', bget fuel d bn st = Ok (Buf k, st') ∧
           k ∈ l ∧ k ≠ i ∧ test_at st recyclable k = true ∧
           rd st' (Buf i) = rd st (Buf i).
Proof.
  intros Hinv Hl Hfuel Hnone Hj Ht.
  assert (j ∈ reverse l) as Hj' by by apply elem_of_reverse.
  destruct (first_passing_split _ _ _ _ Hj' Ht) as (l1 & k & l2 & Hrev & Hl1 & Hk).
  assert (k ∈ l) as Hkl.
  { apply elem_of_reverse. rewrite Hrev. set_solver. }
  assert (k ≠ i) as Hki.
  { intros ->. pose proof (list_inv_NoDup _ _ Hinv) as Hnd.
    rewrite fmap_cons in Hnd. apply NoDup_cons in Hnd as [_ Hnd].
    apply NoDup_cons in Hnd as [Hi _]. apply Hi.
    by apply list_elem_of_fmap_2. }
  unfold test_at in Hk. destruct (bc_buf st !! k) as [x|] eqn:Hx; [|done].
  simpl in Hk.
  exists k, (wr (set_bc_lock 0 st) (Buf k) (rebound_buf d bn x)).
  split_and!; [|done|done|by unfold test_at; rewrite Hx|].
  - eapply (bget_miss_spec st (i :: l) fuel d bn l1 k (l2 ++ [i]));
      [done..| |done|done|done].
    by rewrite reverse_cons, Hrev, <-app_assoc.
  - rewrite rd_wr_ne by congruence. by rewrite rd_set_bc_lock.
Qed.

Lemma bget_recycles_front_last_witness :
  ∃ k st', bget FUEL 7 7 st_all_written = Ok (Buf k, st') ∧
           k ∈ [1; 0]%nat ∧ k ≠ 2%nat ∧
           test_at st_all_written recyclable k = true ∧
           rd st' (Buf 2) = rd st_all_written (Buf 2).
Proof.
  apply (bget_recycles_front_last st_all_written 2%nat [1; 0]%nat FUEL 7 7 1%nat).
  - split_and!; [done|simpl; solve_Permutation|by repeat split].
  - by vm_compute.
  - unfold FUEL. lia.
  - by repeat constructor.
  - set_solver.
  - reflexivity.
Defined.
